(** * ConwordsGenerator: a shallow embedding and its verified properties

    The development follows the JavaScript class [ConwordsGenerator]:
    dictionary compilation ([compile]), the randomized placement step
    ([generateQuestion]), one generation ([iterate]), the scoring and
    selection step ([selectSolutions]) and the completion pass
    ([fillEmptySpaces]).

    Conventions of the embedding.
    - A JavaScript string is the list of its UTF-16 code units ([jsstring]).
    - Integers are [Z]; array indices that the code computes are [Z] and an
      index outside the array reads [undefined], which the model makes
      explicit: reading a property of [undefined] throws [TypeError].
    - A pseudo-random number is a value of [draw], a rational in [0, 1).
      Only [Math.floor (random () * n)] is ever computed from it, which is
      [floor_mul]; the rounding of the floating-point product is not
      modelled.
    - Scores are rationals ([Q]) instead of floating-point numbers.
    - [while] loops without a syntactic bound take fuel; running out of fuel
      is the outcome [Diverge].
    - The presenter ([toString], [getJSON]) and the progress callback of
      [compile] take no part in the properties and are not embedded. *)

From Stdlib Require Import ZArith QArith Qround Lia Ascii String.
From stdpp Require Import base option list gmap sets pretty sorting.

Local Open Scope Z_scope.

(** ** JavaScript values *)

Abbreviation jsstring := (list Z).

(** An ASCII literal as a JavaScript string. *)
Definition js (s : string) : jsstring :=
  (λ a, Z.of_N (N_of_ascii a)) <$> list_ascii_of_string s.

(** [String(n)] for an integer [n] (below 10^21 in absolute value). *)
Definition num_to_string (n : Z) : jsstring := js (pretty n).

(** [a[i]] for a computed index: [undefined] is [None]. *)
Definition nth_Z {A} (l : list A) (i : Z) : option A :=
  if i <? 0 then None else l !! Z.to_nat i.

(** [s.charAt(i)]: the empty string outside the string. *)
Definition charAt (s : jsstring) (i : Z) : jsstring :=
  match nth_Z s i with Some c => [c] | None => [] end.

(** [s.replace(a, b)] for one-character strings [a] and [b]: the first
    occurrence only. *)
Fixpoint replace1 (a b : Z) (s : jsstring) : jsstring :=
  match s with
  | [] => []
  | c :: t => if c =? a then b :: t else c :: replace1 a b t
  end.

Definition jsstring_eqb (a b : jsstring) : bool := bool_decide (a = b).

(** Outcomes of a computation. *)
Inductive error := TypeError | RangeError.

Inductive result (A : Type) :=
  | Ok (a : A)
  | Throw (e : error)
  | Diverge.
Arguments Ok {A} a.
Arguments Throw {A} e.
Arguments Diverge {A}.

(** ** Pseudo-random numbers *)

(** The number [dnum / (dnum + dgap)]: every rational of [0, 1) and nothing
    else. *)
Record draw := { dnum : N; dgap : positive }.

(** [Math.floor(r * n)]. *)
Definition floor_mul (r : draw) (n : Z) : Z :=
  (Z.of_N (dnum r) * n) / (Z.of_N (dnum r) + Z.pos (dgap r)).

(** The generator owns the seeded source [this.random]; [Math.random] is the
    ambient source of the host, which no seed determines. *)
Record world := {
  random : nat → draw;
  drawn : nat;
  math_random : nat → draw;
  math_drawn : nat
}.

(** ** The state and error monad of the generator's methods *)

Definition M (A : Type) : Type := world → result (A * world).

Definition ret {A} (a : A) : M A := λ w, Ok (a, w).
Definition throw {A} (e : error) : M A := λ _, Throw e.
Definition diverge {A} : M A := λ _, Diverge.
Definition bind {A B} (m : M A) (k : A → M B) : M B :=
  λ w, match m w with
       | Ok (a, w') => k a w'
       | Throw e => Throw e
       | Diverge => Diverge
       end.

Notation "x <- m ;; k" := (bind m (λ x, k))
  (at level 100, m at next level, right associativity).

(** [this.random()] and [Math.random()]. *)
Definition this_random : M draw :=
  λ w, Ok (random w (drawn w),
           {| random := random w; drawn := S (drawn w);
              math_random := math_random w; math_drawn := math_drawn w |}).

Definition Math_random : M draw :=
  λ w, Ok (math_random w (math_drawn w),
           {| random := random w; drawn := drawn w;
              math_random := math_random w; math_drawn := S (math_drawn w) |}).

(** A property read of a value that may be [undefined]. *)
Definition defined {A} (o : option A) : M A :=
  match o with Some a => ret a | None => throw TypeError end.

(** ** Dictionary compilation *)

Record CompiledDictionary := {
  words : list jsstring;
  letters : gmap jsstring (list nat);
  lengths : list (list nat);
  phrases : list jsstring;
  (* the field [questions] of the compilation: cross references *)
  crossRefs : list (option (list nat * list nat))
}.

(** The class [\s] of JavaScript regular expressions. *)
Definition is_space (c : Z) : bool :=
  bool_decide (c ∈ [9; 10; 11; 12; 13; 32; 160; 5760; 8232; 8233; 8239; 8287;
                    12288; 65279])
  || ((8192 <=? c) && (c <=? 8202)).

(** [item.match(/\s+/) === null]. *)
Definition no_space (item : jsstring) : bool := negb (existsb is_space item).

(** The class [[A-Z0-9ÁÉÍÓÚÜÑ]]. *)
Definition in_class (c : Z) : bool :=
  ((65 <=? c) && (c <=? 90)) || ((48 <=? c) && (c <=? 57))
  || bool_decide (c ∈ [193; 201; 205; 211; 218; 220; 209]).

Fixpoint take_while {A} (f : A → bool) (l : list A) : list A :=
  match l with
  | [] => []
  | a :: t => if f a then a :: take_while f t else []
  end.

(** [word.match(/[A-Z0-9ÁÉÍÓÚÜÑ]+/)]: the leftmost maximal run of characters
    of the class, [None] for [null]. *)
Fixpoint regex_match (s : jsstring) : option jsstring :=
  match s with
  | [] => None
  | c :: t =>
      if in_class c then Some (c :: take_while in_class t) else regex_match t
  end.

(** [a.indexOf(item)], [None] for [-1]. *)
Fixpoint indexOf (l : list jsstring) (item : jsstring) : option nat :=
  match l with
  | [] => None
  | h :: t => if jsstring_eqb h item then Some O else S <$> indexOf t item
  end.

(** The accumulators of the first loop of [compile]. *)
Record grouping := {
  g_words : list jsstring;
  g_phrases : list jsstring;
  g_groupMap : gmap nat (list nat * list nat)
}.

(** The accumulators local to one line. *)
Record line_state := {
  l_words : list jsstring;
  l_phrases : list jsstring;
  l_set1 : list jsstring;
  l_set2 : list jsstring;
  l_idxMap : gmap jsstring nat
}.

(** [push] into [l] unless [item] is there, returning the index. *)
Definition push_unique (l : list jsstring) (item : jsstring)
  : list jsstring * nat :=
  match indexOf l item with
  | Some idx => (l, idx)
  | None => (l ++ [item], length l)
  end.

(** The body of [line.forEach((item) => ...)]. *)
Definition line_item (st : line_state) (item : jsstring) : line_state :=
  if (1 <? Z.of_nat (length item)) then
    if no_space item then
      let '(ws, idx) := push_unique (l_words st) item in
      {| l_words := ws; l_phrases := l_phrases st;
         l_set1 := l_set1 st ++ [item]; l_set2 := l_set2 st;
         l_idxMap := <[item := idx]> (l_idxMap st) |}
    else
      let '(ps, idx) := push_unique (l_phrases st) item in
      {| l_words := l_words st; l_phrases := ps;
         l_set1 := l_set1 st; l_set2 := l_set2 st ++ [item];
         l_idxMap := <[item := idx]> (l_idxMap st) |}
  else st.

(** [idxMap.get(item)]; every item of [set1] and [set2] was put in the map by
    [line_item], so the default is never used. *)
Definition idx_of (m : gmap jsstring nat) (item : jsstring) : nat :=
  default O (m !! item).

(** The body of the outer [set1.forEach((item) => ...)]. *)
Definition group_item (ls : line_state) (gm : gmap nat (list nat * list nat))
    (item : jsstring) : gmap nat (list nat * list nat) :=
  let itemIdx := idx_of (l_idxMap ls) item in
  let groupItem := default ([], []) (gm !! itemIdx) in
  let g0 :=
    fold_left (λ acc item2,
      if jsstring_eqb item item2 then acc
      else acc ++ [idx_of (l_idxMap ls) item2]) (l_set1 ls) (fst groupItem) in
  let g1 :=
    fold_left (λ acc item2, acc ++ [idx_of (l_idxMap ls) item2])
      (l_set2 ls) (snd groupItem) in
  <[itemIdx := (g0, g1)]> gm.

(** The body of [for (let line of data)], without the progress callback. *)
Definition compile_line (g : grouping) (line : list jsstring) : grouping :=
  let ls :=
    fold_left line_item line
      {| l_words := g_words g; l_phrases := g_phrases g;
         l_set1 := []; l_set2 := []; l_idxMap := ∅ |} in
  let gm :=
    if (0 <? Z.of_nat (length (l_set1 ls)))
       && (1 <? Z.of_nat (length (l_set1 ls) + length (l_set2 ls)))
    then fold_left (group_item ls) (l_set1 ls) (g_groupMap g)
    else g_groupMap g in
  {| g_words := l_words ls; g_phrases := l_phrases ls; g_groupMap := gm |}.

(** The accumulators of the second loop of [compile]. *)
Record indices := {
  i_letters : gmap jsstring (list nat);
  i_lengths : list (list nat)
}.

(** [for (i = 0; i <= length; i++) if (lengths[i] === undefined) lengths[i] = []].
    The loop visits the indices in increasing order, so an assignment to an
    undefined index appends: the array never has a hole. *)
Definition fill_undefined (length : nat) (ls : list (list nat))
  : list (list nat) :=
  fold_left (λ acc i, match acc !! i with
                      | None => acc ++ [[]]
                      | Some _ => acc
                      end) (seq 0 (S length)) ls.

(** The key ["" + i + c] of the letter index. *)
Definition letter_key (i : nat) (c : Z) : jsstring :=
  num_to_string (Z.of_nat i) ++ [c].

(** [a.push(idx)] on the array at [key], created when undefined. *)
Definition push_letter (m : gmap jsstring (list nat)) (key : jsstring)
    (idx : nat) : gmap jsstring (list nat) :=
  <[key := default [] (m !! key) ++ [idx]]> m.

(** [for (i = 0; i < word.length; i++)] over [word] from position [i]. *)
Fixpoint index_letters (m : gmap jsstring (list nat)) (i : nat)
    (word : jsstring) (idx : nat) : gmap jsstring (list nat) :=
  match word with
  | [] => m
  | c :: t => index_letters (push_letter m (letter_key i c) idx) (S i) t idx
  end.

(** The test of the second loop. *)
Definition accepted (word : jsstring) : bool :=
  match regex_match word with
  | Some m => jsstring_eqb m word && (1 <? Z.of_nat (length word))
  | None => false
  end.

(** The body of [words.forEach((word, idx) => ...)]. *)
Definition index_word (ix : indices) (word : jsstring) (idx : nat) : indices :=
  if accepted word then
    let len := length word in
    let ls := match i_lengths ix !! len with
              | None => fill_undefined len (i_lengths ix)
              | Some _ => i_lengths ix
              end in
    {| i_lengths := alter (λ b, b ++ [idx]) len ls;
       i_letters := index_letters (i_letters ix) 0 word idx |}
  else ix.

(** [words.forEach] from index [idx]. *)
Fixpoint index_words (ix : indices) (ws : list jsstring) (idx : nat)
  : indices :=
  match ws with
  | [] => ix
  | w :: t => index_words (index_word ix w idx) t (S idx)
  end.

(** [compile(dictionaries)]: the value the promise resolves with. *)
Definition compile (dictionaries : list (list (list jsstring))) : CompiledDictionary :=
  let data := concat dictionaries in
  let g := fold_left compile_line data
             {| g_words := []; g_phrases := []; g_groupMap := ∅ |} in
  let ix := index_words {| i_letters := ∅; i_lengths := [] |} (g_words g) 0 in
  {| words := g_words g;
     letters := i_letters ix;
     lengths := i_lengths ix;
     phrases := g_phrases g;
     crossRefs := (λ idx, g_groupMap g !! idx) <$> seq 0 (length (g_words g)) |}.

(** ** Grids *)

(** A cell is the array [[letter, partOfVertical, partOfHorizontal]]. *)
Record cell := {
  letter : jsstring;
  partOfVertical : bool;
  partOfHorizontal : bool
}.

(** An entry of [questionsData]; [horizontal] is the number 0 or 1. *)
Record question := {
  q_idx : nat;
  q_word : jsstring;
  q_horizontal : Z;
  q_x : Z;
  q_y : Z
}.

(** The matrix with its properties. An absent property is [false] for the
    two flags and [None] for the values that [selectSolutions] computes. *)
Record grid := {
  rows : list (list cell);
  questions : gset nat;
  questionsData : list question;
  matrix_width : Z;
  matrix_height : Z;
  finish : bool;
  borde : bool;
  hash : option Z;
  intersections : option Z;
  isolatedWords : option Z;
  fillingPercentage : option Z;
  score : option Q;
  singlesIdx : list question
}.

Record options := {
  compilation : CompiledDictionary;
  width : Z;
  height : Z;
  emptySpace : jsstring;
  wordsPerIteration : Z;
  solutionsPerIteration : Z;
  selectedSolutions : Z;
  wordsOnBorder : Q;
  minimumLengthFactor : Q;
  finishAt : Z;
  scoreFunction : Z → Z → Z → Q
}.

(** [ConwordsGenerator.options], around a compilation. *)
Definition default_options (c : CompiledDictionary) : options :=
  {| compilation := c;
     width := 24;
     height := 22;
     emptySpace := [183];
     wordsPerIteration := 2;
     solutionsPerIteration := 33;
     selectedSolutions := 22;
     wordsOnBorder := 9 # 10;
     minimumLengthFactor := 1;
     finishAt := 600;
     scoreFunction := λ filled crosses singles,
       (inject_Z (filled * 4 + 2 * crosses) / inject_Z (1 + singles * 4))%Q |}.

(** Updates of one property. *)
Definition set_rows (m : grid) (r : list (list cell)) : grid :=
  {| rows := r; questions := questions m; questionsData := questionsData m;
     matrix_width := matrix_width m; matrix_height := matrix_height m;
     finish := finish m; borde := borde m; hash := hash m;
     intersections := intersections m; isolatedWords := isolatedWords m;
     fillingPercentage := fillingPercentage m; score := score m;
     singlesIdx := singlesIdx m |}.

Definition set_borde (m : grid) (b : bool) : grid :=
  {| rows := rows m; questions := questions m;
     questionsData := questionsData m;
     matrix_width := matrix_width m; matrix_height := matrix_height m;
     finish := finish m; borde := b; hash := hash m;
     intersections := intersections m; isolatedWords := isolatedWords m;
     fillingPercentage := fillingPercentage m; score := score m;
     singlesIdx := singlesIdx m |}.

Definition set_finish (m : grid) (b : bool) : grid :=
  {| rows := rows m; questions := questions m;
     questionsData := questionsData m;
     matrix_width := matrix_width m; matrix_height := matrix_height m;
     finish := b; borde := borde m; hash := hash m;
     intersections := intersections m; isolatedWords := isolatedWords m;
     fillingPercentage := fillingPercentage m; score := score m;
     singlesIdx := singlesIdx m |}.

(** [questions.add(idx); questionsData.push(q)]. *)
Definition add_question (m : grid) (q : question) : grid :=
  {| rows := rows m; questions := {[q_idx q]} ∪ questions m;
     questionsData := questionsData m ++ [q];
     matrix_width := matrix_width m; matrix_height := matrix_height m;
     finish := finish m; borde := borde m; hash := hash m;
     intersections := intersections m; isolatedWords := isolatedWords m;
     fillingPercentage := fillingPercentage m; score := score m;
     singlesIdx := singlesIdx m |}.

(** Truthiness of a number. *)
Definition truthy (z : Z) : bool := negb (z =? 0).
Definition truthyQ (q : Q) : bool := negb (Qeq_bool q 0).

(** [c[k]] and [c[k] = true] for a flag; [k] is [1 + horizontal] or a
    literal, so it is 1 or 2. *)
Definition flag (c : cell) (k : Z) : bool :=
  if k =? 1 then partOfVertical c
  else if k =? 2 then partOfHorizontal c
  else false.

Definition set_flag (c : cell) (k : Z) : cell :=
  if k =? 1 then
    {| letter := letter c; partOfVertical := true;
       partOfHorizontal := partOfHorizontal c |}
  else if k =? 2 then
    {| letter := letter c; partOfVertical := partOfVertical c;
       partOfHorizontal := true |}
  else c.

Definition set_letter (c : cell) (l : jsstring) : cell :=
  {| letter := l; partOfVertical := partOfVertical c;
     partOfHorizontal := partOfHorizontal c |}.

(** [matrix[y][x]], where the cell is then read or written. *)
Definition cell_at (m : grid) (x y : Z) : M cell :=
  row <- defined (nth_Z (rows m) y) ;;
  defined (nth_Z row x).

(** [matrix[y][x] = f(matrix[y][x])], for the writes [matrix[y][x][k] = v]. *)
Definition update_cell (m : grid) (x y : Z) (f : cell → cell) : M grid :=
  row <- defined (nth_Z (rows m) y) ;;
  c <- defined (nth_Z row x) ;;
  ret (set_rows m (<[Z.to_nat y := <[Z.to_nat x := f c]> row]> (rows m))).

(** [a && b] and [a || b] where the operands read the matrix. *)
Definition and_then (a : bool) (b : M bool) : M bool :=
  if a then b else ret false.

Definition or_else (a b : M bool) : M bool :=
  r <- a ;; if r then ret true else b.

(** [#normalizeLetter]. *)
Definition normalizeLetter (l : jsstring) : jsstring :=
  replace1 252 117 (replace1 250 117 (replace1 243 111
    (replace1 237 105 (replace1 233 101 (replace1 225 97 l))))).

(** [#getPreguntasPorPosicion]. *)
Definition getPreguntasPorPosicion (m : grid) (x y : Z) : list question :=
  filter (λ q,
    Is_true ((truthy (q_horizontal q)
       && (q_x q <=? x) && (x <? q_x q + Z.of_nat (length (q_word q)))
       && (q_y q =? y))
    || (negb (truthy (q_horizontal q))
       && (q_y q <=? y) && (y <? q_y q + Z.of_nat (length (q_word q)))
       && (q_x q =? x)))) (questionsData m).

(** [llevo / total > w] on numbers: a division by zero gives [Infinity] or
    [NaN]. *)
Definition Qlt_bool (a b : Q) : bool := negb (Qle_bool b a).

Definition ratio_gt (llevo total : Z) (w : Q) : bool :=
  if 0 <? total then Qlt_bool (w * inject_Z total) (inject_Z llevo)
  else if total =? 0 then 0 <? llevo
  else Qlt_bool (inject_Z llevo) (w * inject_Z total).

(** ** The generator *)

Section Generator.

(** [this.options] and [this.ignored]. *)
Variable o : options.
Variable ignored : gset nat.

(** [this.options.wordsOnBorder] as a condition. *)
Definition border_mode : bool := truthyQ (wordsOnBorder o).

(** [matrix[y][x][0] !== this.options.emptySpace]. *)
Definition is_empty (c : cell) : bool := jsstring_eqb (letter c) (emptySpace o).

Definition occupied (m : grid) (x y : Z) : M bool :=
  c <- cell_at m x y ;; ret (negb (is_empty c)).

(** *** [#generateQuestion] *)

(** The length of the word to place; [placed] is
    [matrixClone.questionsData.length] and [r] the number drawn. *)
Definition target_length (placed : nat) (horizontal : Z) (r : draw) : Z :=
  let L := Z.of_nat (length (lengths (compilation o))) in
  Z.max
    (Z.max 2
       (Z.min (Z.min (width o) (height o)) (Z.quot L 3 - 1)
        - Qfloor (inject_Z (Z.of_nat placed) * minimumLengthFactor o)))
    (floor_mul r (Z.min (if horizontal =? 1 then width o else height o) L)).

(** The start position, from two numbers drawn for [x] and then [y]. *)
Definition start_position (borde : bool) (horizontal length : Z)
    (rx ry : draw) : Z * Z :=
  if border_mode && negb borde then
    (if truthy horizontal then floor_mul rx (width o - length)
     else floor_mul rx 2 * (width o - 1),
     if truthy horizontal then floor_mul ry 2 * (height o - 1)
     else floor_mul ry (height o - length))
  else
    (if truthy horizontal then floor_mul rx (width o - length)
     else floor_mul rx (width o),
     if truthy horizontal then floor_mul ry (height o)
     else floor_mul ry (height o - length)).

(** The cell before the start or after the end of the word is occupied. *)
Definition ends_occupied (m : grid) (horizontal length x y : Z) : M bool :=
  or_else (and_then (truthy horizontal && (0 <? x)) (occupied m (x - 1) y))
  (or_else (and_then (truthy horizontal && (x <? width o - length))
              (occupied m (x + length) y))
  (or_else (and_then (negb (truthy horizontal) && (0 <? y))
              (occupied m x (y - 1)))
     (and_then (negb (truthy horizontal) && (y <? height o - length))
        (occupied m x (y + length))))).

(** What the loop over the cells of the word collects. *)
Record span := {
  s_ok : bool;
  vecinoAdjacente : gset nat;
  vecinoCruce : gset nat;
  s_matches : list jsstring
}.

(** [match.forEach((p) => set.add(p.idx))]. *)
Definition add_idx (s : gset nat) (found : list question) : gset nat :=
  fold_left (λ acc p, {[q_idx p]} ∪ acc) found s.

(** The neighbours of the cell [i] of the word, on both sides and on the
    cell. *)
Definition neighbours (m : grid) (horizontal x y i : Z) (st : span) : span :=
  if truthy horizontal then
    let a1 := if 0 <? y
              then add_idx (vecinoAdjacente st)
                     (getPreguntasPorPosicion m (x + i) (y - 1))
              else vecinoAdjacente st in
    let a2 := if y <? height o - 1
              then add_idx a1 (getPreguntasPorPosicion m (x + i) (y + 1))
              else a1 in
    {| s_ok := s_ok st; vecinoAdjacente := a2;
       vecinoCruce :=
         add_idx (vecinoCruce st) (getPreguntasPorPosicion m (x + i) y);
       s_matches := s_matches st |}
  else
    let a1 := if 0 <? x
              then add_idx (vecinoAdjacente st)
                     (getPreguntasPorPosicion m (x - 1) (y + i))
              else vecinoAdjacente st in
    let a2 := if x <? width o - 1
              then add_idx a1 (getPreguntasPorPosicion m (x + 1) (y + i))
              else a1 in
    {| s_ok := s_ok st; vecinoAdjacente := a2;
       vecinoCruce :=
         add_idx (vecinoCruce st) (getPreguntasPorPosicion m x (y + i));
       s_matches := s_matches st |}.

(** [matches.push("" + i + c[0])] when the cell [c] is not empty. *)
Definition push_match (i : Z) (c : cell) (st : span) : span :=
  if is_empty c then st
  else {| s_ok := s_ok st; vecinoAdjacente := vecinoAdjacente st;
          vecinoCruce := vecinoCruce st;
          s_matches := s_matches st ++ [num_to_string i ++ letter c] |}.

Definition failed (st : span) : span :=
  {| s_ok := false; vecinoAdjacente := vecinoAdjacente st;
     vecinoCruce := vecinoCruce st; s_matches := s_matches st |}.

(** [for (let i = 0; i < length; i++)] with [n] iterations left. *)
Fixpoint span_loop (n : nat) (m : grid) (horizontal x y i : Z) (st : span)
  : M span :=
  match n with
  | O => ret st
  | S n' =>
      b1 <- and_then (truthy horizontal)
              (c <- cell_at m (x + i) y ;; ret (flag c (1 + horizontal))) ;;
      if b1 then ret (failed st)
      else
        b2 <- and_then (negb (truthy horizontal))
                (c <- cell_at m x (y + i) ;; ret (flag c (1 + horizontal))) ;;
        if b2 then ret (failed st)
        else
          let st1 := neighbours m horizontal x y i st in
          st2 <- (if truthy horizontal
                  then c <- cell_at m (x + i) y ;; ret (push_match i c st1)
                  else ret st1) ;;
          st3 <- (if negb (truthy horizontal)
                  then c <- cell_at m x (y + i) ;; ret (push_match i c st2)
                  else ret st2) ;;
          span_loop n' m horizontal x y (i + 1) st3
  end.

(** [[...vecinoAdjacente].filter((m) => !vecinoCruce.has(m)).length > 0]. *)
Definition adjacent_without_crossing (st : span) : bool :=
  0 <? Z.of_nat (length (filter (λ i, i ∉ vecinoCruce st)
                           (elements (vecinoAdjacente st)))).

(** A word of [palabras] agrees with every entry of [matches]. *)
Definition agrees (matches : list jsstring) (palabra : nat) : bool :=
  forallb (λ key, match letters (compilation o) !! key with
                  | None => false
                  | Some palabrasMatch => bool_decide (palabra ∈ palabrasMatch)
                  end) matches.

(** The loop that draws a word until it is not yet used; [n] is 101 minus
    the value of [count] after this iteration. [None] stands for the exit
    with [ok = false]. *)
Fixpoint draw_word (n : nat) (m : grid) (palabras : list nat)
  : M (option nat) :=
  match n with
  | O => ret None
  | S n' =>
      r <- this_random ;;
      let idx := nth_Z palabras (floor_mul r (Z.of_nat (length palabras))) in
      match n' with
      | O => ret None
      | S _ =>
          match idx with
          | None => draw_word n' m palabras
          | Some i =>
              if bool_decide (i ∈ questions m) then draw_word n' m palabras
              else ret (Some i)
          end
      end
  end.

(** The loop that writes the word, [n] iterations left. *)
Fixpoint write_word (n : nat) (m : grid) (word : option jsstring)
    (horizontal x y i : Z) : M grid :=
  match n with
  | O => ret m
  | S n' =>
      w <- defined word ;;
      let letra := normalizeLetter (charAt w i) in
      m1 <- (if truthy horizontal
             then update_cell m (x + i) y
                    (λ c, set_flag (set_letter c letra) (1 + horizontal))
             else ret m) ;;
      m2 <- (if negb (truthy horizontal)
             then update_cell m1 x (y + i)
                    (λ c, set_flag (set_letter c letra) (1 + horizontal))
             else ret m1) ;;
      write_word n' m2 word horizontal x y (i + 1)
  end.

(** [questionsData.map((p) => p.word).join("").length]. *)
Definition llevo (m : grid) : Z :=
  Z.of_nat (length (concat (q_word <$> questionsData m))).

(** The update of [borde] after a placement. *)
Definition border_coverage (m : grid) : grid :=
  if border_mode && negb (borde m) then
    set_borde m (ratio_gt (llevo m) ((width o + height o) * 2)
                   (wordsOnBorder o))
  else m.

(** One pass of the body of [while (true)] after the test of the budget:
    [Some] is the matrix returned, [None] the next iteration. *)
Definition attempt (m : grid) : M (option grid) :=
  rh <- this_random ;;
  let horizontal := floor_mul rh 2 in
  rl <- this_random ;;
  let length := target_length (length (questionsData m)) horizontal rl in
  palabras <- defined (nth_Z (lengths (compilation o)) length) ;;
  let palabras := filter (λ palabra, palabra ∉ ignored) palabras in
  rx <- this_random ;;
  ry <- this_random ;;
  let '(x, y) := start_position (borde m) horizontal length rx ry in
  bad <- ends_occupied m horizontal length x y ;;
  let st0 := {| s_ok := negb bad; vecinoAdjacente := ∅; vecinoCruce := ∅;
                s_matches := [] |} in
  st <- (if s_ok st0
         then span_loop (Z.to_nat length) m horizontal x y 0 st0
         else ret st0) ;;
  let ok := s_ok st && negb (adjacent_without_crossing st) in
  if ok then
    let matches := s_matches st in
    let '(ok, palabras) :=
      if 0 <? Z.of_nat (List.length matches)
      then (true, filter (λ p, Is_true (agrees matches p)) palabras)
      else if border_mode && borde m then (false, palabras)
      else (true, palabras) in
    if ok && (0 <? Z.of_nat (List.length palabras)) then
      picked <- draw_word 100 m palabras ;;
      match picked with
      | None => ret None
      | Some idx =>
          let word := words (compilation o) !! idx in
          m1 <- write_word (Z.to_nat length) m word horizontal x y 0 ;;
          w <- defined word ;;
          let m2 := add_question m1
                      {| q_idx := idx; q_word := w;
                         q_horizontal := horizontal; q_x := x; q_y := y |} in
          ret (Some (border_coverage m2))
      end
    else ret None
  else ret None.

(** The test of the budget at the head of the loop. *)
Inductive budget_step :=
  | Finished (m : grid)
  | Try (intento : Z) (m : grid).

Definition budget (intento : Z) (m : grid) : budget_step :=
  let intento := intento + 1 in
  if intento =? finishAt o then
    if border_mode && negb (borde m) then Try 0 (set_borde m true)
    else Finished (set_finish m true)
  else Try intento m.

(** [while (true)] from the value [intento] of the counter. *)
Fixpoint generateQuestion_from (fuel : nat) (intento : Z) (m : grid)
  : M grid :=
  match fuel with
  | O => diverge
  | S fuel' =>
      if finish m then ret m
      else
        match budget intento m with
        | Finished m' => ret m'
        | Try intento' m' =>
            r <- attempt m' ;;
            match r with
            | Some m'' => ret m''
            | None => generateQuestion_from fuel' intento' m'
            end
        end
  end.

Definition generateQuestion (fuel : nat) (matrixClone : grid) : M grid :=
  generateQuestion_from fuel 0 matrixClone.

End Generator.

(** ** Scoring and selection *)

(** [ToInt32]. *)
Definition wrap32 (z : Z) : Z := (z + 2 ^ 31) mod 2 ^ 32 - 2 ^ 31.

(** [#hashCode]: [hash << 5] wraps, and so does [hash & hash]. *)
Definition hashCode (str : jsstring) : Z :=
  fold_left (λ hash char, wrap32 (wrap32 (hash * 32) - hash + char)) str 0.

(** The string that is hashed. *)
Definition hash_input (qs : list question) : jsstring :=
  fold_left (λ prev current,
    prev ++ q_word current ++ js "_" ++ num_to_string (q_horizontal current)
         ++ js "_" ++ num_to_string (q_x current)
         ++ js "_" ++ num_to_string (q_y current)) qs [].

(** The inner test of [#getIntersections]: [question1] meets [question2]. *)
Definition crosses (question1 question2 : question) : bool :=
  negb (jsstring_eqb (q_word question1) (q_word question2))
  && negb (q_horizontal question1 =? q_horizontal question2)
  && (if truthy (q_horizontal question1) then
        (q_x question1 <=? q_x question2)
        && (q_x question2 <? q_x question1 + Z.of_nat (length (q_word question1)))
        && (q_y question2 <=? q_y question1)
        && (q_y question1 <? q_y question2 + Z.of_nat (length (q_word question2)))
      else
        (q_y question1 <=? q_y question2)
        && (q_y question2 <? q_y question1 + Z.of_nat (length (q_word question1)))
        && (q_x question2 <=? q_x question1)
        && (q_x question1 <? q_x question2 + Z.of_nat (length (q_word question2)))).

Definition subCruces (qs : list question) (question1 : question) : Z :=
  Z.of_nat (length (filter (λ question2, Is_true (crosses question1 question2)) qs)).

(** [#getIntersections]: the crossings, the isolated words and [singlesIdx]. *)
Definition getIntersections (m : grid) : Z * Z * list question :=
  let qs := questionsData m in
  let singles := filter (λ q, subCruces qs q = 0) qs in
  (fold_left (λ acc q, acc + subCruces qs q) qs 0,
   Z.of_nat (length singles), singles).

Section Selection.

Variable o : options.

(** [#getFillingPercentage]. *)
Definition getFillingPercentage (m : grid) : Z :=
  fold_left (λ acc fila,
    acc + Z.of_nat (length (filter (λ c, Is_true (negb (is_empty o c))) fila)))
    (rows m) 0.

(** The body of the first [solutions.forEach]. *)
Definition annotate (m : grid) : grid :=
  let '(cr, si, singles) := getIntersections m in
  let fill := getFillingPercentage m in
  {| rows := rows m; questions := questions m;
     questionsData := questionsData m;
     matrix_width := matrix_width m; matrix_height := matrix_height m;
     finish := finish m; borde := borde m;
     hash := Some (hashCode (hash_input (questionsData m)));
     intersections := Some cr; isolatedWords := Some si;
     fillingPercentage := Some fill;
     score := Some (scoreFunction o fill cr si);
     singlesIdx := singles |}.

(** The second [solutions.forEach]: the first matrix of every hash. *)
Definition unique_solutions (solutions : list grid) : list grid :=
  snd (fold_left (λ '(uniqueSolutionsIndices, uniqueSolutions) matrix,
         if bool_decide (hash matrix ∈ uniqueSolutionsIndices)
         then (uniqueSolutionsIndices, uniqueSolutions)
         else (uniqueSolutionsIndices ++ [hash matrix],
               uniqueSolutions ++ [matrix]))
       solutions ([], [])).

(** [matrix.score]; [annotate] has set it on every element that is sorted. *)
Definition score_of (m : grid) : Q := default 0%Q (score m).

End Selection.

(** [Array.prototype.sort] is stable; [before a b] says that the comparator
    does not put [b] before [a]. *)
Fixpoint insert_sorted {A} (before : A → A → bool) (a : A) (l : list A)
  : list A :=
  match l with
  | [] => [a]
  | b :: t => if before a b then a :: b :: t
              else b :: insert_sorted before a t
  end.

Definition stable_sort {A} (before : A → A → bool) (l : list A) : list A :=
  foldr (insert_sorted before) [] l.

(** [array.length = n]: shortening, for an integer [n] that is not
    negative. *)
Definition set_length {A} (l : list A) (n : Z) : result (list A) :=
  if n <? 0 then Throw RangeError else Ok (take (Z.to_nat n) l).

Section Methods.

Variable o : options.
Variable ignored : gset nat.

(** [#selectSolutions]; the comparator is [(a, b) => b.score - a.score]. *)
Definition selectSolutions (solutions : list grid) (cantidadRetornada : Z)
  : result (list grid) :=
  let solutions := annotate o <$> solutions in
  let uniqueSolutions := unique_solutions solutions in
  let uniqueSolutions :=
    stable_sort (λ a b, Qle_bool (score_of b) (score_of a)) uniqueSolutions in
  set_length uniqueSolutions
    (Z.min (Z.of_nat (length uniqueSolutions)) cantidadRetornada).

Definition lift {A} (r : result A) : M A :=
  λ w, match r with
       | Ok a => Ok (a, w)
       | Throw e => Throw e
       | Diverge => Diverge
       end.

(** [for (let k = 0; k < n; k++) m = f(m)]. *)
Fixpoint repeat_M {A} (n : nat) (f : A → M A) (a : A) : M A :=
  match n with
  | O => ret a
  | S n' => a' <- f a ;; repeat_M n' f a'
  end.

(** [for] over a list, collecting the results in order. *)
Fixpoint for_each {A B} (f : A → M B) (l : list A) : M (list B) :=
  match l with
  | [] => ret []
  | a :: t => b <- f a ;; bs <- for_each f t ;; ret (b :: bs)
  end.

(** The argument of [iterate]: a matrix or an array of matrices. *)
Inductive population :=
  | Single (matrix : grid)
  | Many (matrices : list grid).

(** [iterate]; [clone] copies the matrix, which is a value here. *)
Definition iterate (fuel : nat) (matrices : population) : M (list grid) :=
  let matrices := match matrices with
                  | Single m => [m]
                  | Many ms => ms
                  end in
  solutions <-
    for_each (λ i,
      let idx := (Z.of_nat (length matrices) * i) / solutionsPerIteration o in
      clonedMatrix <- defined (nth_Z matrices idx) ;;
      repeat_M (Z.to_nat (wordsPerIteration o))
        (generateQuestion o ignored fuel) clonedMatrix)
      (Z.of_nat <$> seq 0 (Z.to_nat (solutionsPerIteration o))) ;;
  lift (selectSolutions solutions (selectedSolutions o)).

End Methods.

(** [generate(seedData)]: the empty matrix, and [this.random] is seeded.
    [seed] is the function of the package math-random-seed.

    In the source the cells of a row of this matrix are one shared array
    ([fill]). The sharing is never observed: [iterate] copies the matrix
    before [#generateQuestion] writes, and the copy has an array of its own
    for every cell; [fillEmptySpaces] writes only into a space that ends on
    a flagged cell, which this matrix does not have
    ([fill_matrix_empty_grid]). So the cells are values here. *)
Definition empty_grid (o : options) : grid :=
  {| rows := replicate (Z.to_nat (height o))
               (replicate (Z.to_nat (width o))
                  {| letter := emptySpace o; partOfVertical := false;
                     partOfHorizontal := false |});
     questions := ∅; questionsData := [];
     matrix_width := width o; matrix_height := height o;
     finish := false; borde := false; hash := None;
     intersections := None; isolatedWords := None;
     fillingPercentage := None; score := None; singlesIdx := [] |}.

Definition generate (seed : jsstring → nat → draw) (o : options)
    (seedData : jsstring) : M grid :=
  λ w, if (0 <? height o) && (width o <? 0) then Throw RangeError
       else Ok (empty_grid o,
                {| random := seed seedData; drawn := O;
                   math_random := math_random w;
                   math_drawn := math_drawn w |}).

(** ** [fillEmptySpaces] *)

(** An entry of [points]. *)
Record point := {
  p_x : Z;
  p_y : Z;
  p_size : Z;
  p_horizontal : bool
}.

Section Fill.

Variable o : options.
Variable ignored : gset nat.

(** The cell at position [p] of the scanned line: of the row [fixed] for a
    horizontal space, of the column [fixed] for a vertical one. *)
Definition line_cell (m : grid) (horizontal : bool) (fixed p : Z) : M cell :=
  if horizontal then cell_at m p fixed else cell_at m fixed p.

(** The cell across the line, before it ([y - 1] or [x - 1]) or after it,
    exists and is occupied. *)
Definition side_occupied (m : grid) (horizontal before : bool) (fixed p : Z)
  : M bool :=
  if horizontal then
    if before then and_then (0 <? fixed) (occupied o m p (fixed - 1))
    else and_then (fixed <? height o - 1) (occupied o m p (fixed + 1))
  else
    if before then and_then (0 <? fixed) (occupied o m (fixed - 1) p)
    else and_then (fixed <? width o - 1) (occupied o m (fixed + 1) p).

(** The four loops [while (continueX1)]: towards the left or the top
    ([forward = false]) and towards the right or the bottom, along a row
    ([horizontal = true]) or a column. The result is the end of the space
    and whether it ends on a crossing word. *)
Fixpoint scan (fuel : nat) (m : grid) (horizontal forward : bool)
    (fixed p : Z) : M (Z * bool) :=
  match fuel with
  | O => diverge
  | S fuel' =>
      let limit := if horizontal then width o else height o in
      let back := if forward then -1 else 1 in
      if (if forward then limit <=? p else p <? 0) then
        ret (if forward then limit - 1 else 0, false)
      else
        c <- line_cell m horizontal fixed p ;;
        if (if horizontal then partOfHorizontal c else partOfVertical c) then
          ret (p + back + back, false)
        else if (if horizontal then partOfVertical c else partOfHorizontal c)
        then ret (p, true)
        else
          b1 <- side_occupied m horizontal true fixed p ;;
          if b1 then ret (p + back, false)
          else
            b2 <- side_occupied m horizontal false fixed p ;;
            if b2 then ret (p + back, false)
            else scan fuel' m horizontal forward fixed (p - back)
  end.

(** The points pushed for the empty cell [(x, y)]. *)
Definition cell_points (fuel : nat) (m : grid) (x y : Z) : M (list point) :=
  c <- cell_at m x y ;;
  if is_empty o c then
    r1 <- scan fuel m true false y x ;;
    r2 <- scan fuel m true true y x ;;
    let '(x1, x1Collision) := r1 in
    let '(x2, x2Collision) := r2 in
    let hs :=
      if (x1Collision || x2Collision) && (x1 <? x2) then
        let pt := {| p_x := x1; p_y := y; p_size := x2 + 1 - x1;
                     p_horizontal := true |} in
        pt :: (if x1Collision
               then replicate (Z.to_nat (x2 + 1 - x1 - 1)) pt
               else [])
      else [] in
    r3 <- scan fuel m false false x y ;;
    r4 <- scan fuel m false true x y ;;
    let '(y1, y1Collision) := r3 in
    let '(y2, y2Collision) := r4 in
    let vs :=
      if (y1Collision || y2Collision) && (y1 <? y2) then
        [{| p_x := x; p_y := y1; p_size := y2 + 1 - y1;
            p_horizontal := false |}]
      else [] in
    ret (hs ++ vs)
  else ret [].

(** The two nested [for] loops over the cells. *)
Definition scan_points (fuel : nat) (m : grid) : M (list point) :=
  columns <-
    for_each (λ x,
      cells <- for_each (λ y, cell_points fuel m x y)
                 (Z.of_nat <$> seq 0 (Z.to_nat (height o))) ;;
      ret (concat cells))
      (Z.of_nat <$> seq 0 (Z.to_nat (width o))) ;;
  ret (concat columns).

(** [matches.add(key)] on a [Set] of strings. *)
Definition set_add (key : jsstring) (s : list jsstring) : list jsstring :=
  if bool_decide (key ∈ s) then s else s ++ [key].

(** The letters at the two ends of the space. *)
Definition end_matches (m : grid) (pt : point) : M (list jsstring) :=
  let last_x := if p_horizontal pt then p_x pt + p_size pt - 1 else p_x pt in
  let last_y := if p_horizontal pt then p_y pt else p_y pt + p_size pt - 1 in
  c0 <- cell_at m (p_x pt) (p_y pt) ;;
  let s0 := if is_empty o c0 then []
            else set_add (num_to_string 0 ++ letter c0) [] in
  c1 <- cell_at m last_x last_y ;;
  ret (if is_empty o c1 then s0
       else set_add (num_to_string (p_size pt - 1) ++ letter c1) s0).

(** The words that fit the space; [None] when the bucket is undefined. *)
Definition space_words (m : grid) (pt : point) (matches : list jsstring)
  : option (list nat) :=
  match nth_Z (lengths (compilation o)) (p_size pt) with
  | None => None
  | Some bucket =>
      let fit := filter (λ word, word ∉ ignored) bucket in
      let fit :=
        fold_left (λ fit key,
          match letters (compilation o) !! key with
          | Some wordsMatch => filter (λ w, w ∈ wordsMatch) fit
          | None => []
          end) matches fit in
      Some (filter (λ w, w ∉ questions m) fit)
  end.

(** The loop that writes [word] from [(x, y)]. *)
Fixpoint fill_word (m : grid) (word : jsstring) (horizontal : bool)
    (x y : Z) : M grid :=
  match word with
  | [] => ret m
  | c :: t =>
      m1 <- update_cell m x y (λ cl, set_flag (set_letter cl [c])
                                       (if horizontal then 2 else 1)) ;;
      fill_word m1 t horizontal
        (if horizontal then x + 1 else x) (if horizontal then y else y + 1)
  end.

(** The body of [for (let point of points)]: [Some] is the matrix after a
    placement, which ends the loop. *)
Definition place_point (m : grid) (pt : point) : M (option grid) :=
  matches <- end_matches m pt ;;
  match space_words m pt matches with
  | None => ret None
  | Some fit =>
      if 0 <? Z.of_nat (length fit) then
        r <- Math_random ;;
        let pos := floor_mul r (Z.of_nat (length fit)) in
        idx <- defined (nth_Z fit pos) ;;
        word <- defined (words (compilation o) !! idx) ;;
        m1 <- fill_word m word (p_horizontal pt) (p_x pt) (p_y pt) ;;
        ret (Some (add_question m1
                     {| q_idx := idx; q_word := word;
                        q_horizontal := if p_horizontal pt then 1 else 0;
                        q_x := p_x pt; q_y := p_y pt |}))
      else ret None
  end.

Fixpoint place_first (m : grid) (points : list point) : M (option grid) :=
  match points with
  | [] => ret None
  | pt :: rest =>
      r <- place_point m pt ;;
      match r with
      | Some m' => ret (Some m')
      | None => place_first m rest
      end
  end.

(** [while (continueIteration)] for one matrix. *)
Fixpoint fill_matrix (fuel : nat) (m : grid) : M grid :=
  match fuel with
  | O => diverge
  | S fuel' =>
      points <- scan_points fuel m ;;
      let points := stable_sort (λ a b, p_size b <=? p_size a) points in
      r <- place_first m points ;;
      match r with
      | Some m' => fill_matrix fuel' m'
      | None => ret m
      end
  end.

Definition fillEmptySpaces (fuel : nat) (matrices : list grid)
  : M (list grid) :=
  filled <- for_each (fill_matrix fuel) matrices ;;
  lift (selectSolutions o filled (selectedSolutions o)).

End Fill.

(** ** Concrete inputs *)

(** The number [a / b] for [0 <= a < b]. *)
Definition fraction (a b : Z) : draw :=
  {| dnum := Z.to_N a; dgap := Z.to_pos (b - a) |}.

(** The dictionary of the scenario. *)
Definition cat_dog : list (list (list jsstring)) :=
  [[[js "CAT"; js "feline"]; [js "DOG"; js "canine"]]].

(** A generator over the empty compilation, with the default options. *)
Definition empty_options : options := default_options (compile []).

(** A 3 x 3 generator over three words, two of which fit the same space. *)
Definition small_dictionary : list (list (list jsstring)) :=
  [[[js "AB"; js "ABA"; js "ACA"]]].

Definition small_options : options :=
  {| compilation := compile small_dictionary;
     width := 3; height := 3; emptySpace := [183];
     wordsPerIteration := 1; solutionsPerIteration := 1;
     selectedSolutions := 1;
     wordsOnBorder := 9 # 10; minimumLengthFactor := 1; finishAt := 50;
     scoreFunction :=
       scoreFunction (default_options (compile small_dictionary)) |}.

(** A seeded source that always returns 0, and a host whose [Math.random]
    always returns [a / 2]. *)
Definition zero_seed (s : jsstring) (n : nat) : draw := fraction 0 1.

Definition host (a : Z) : world :=
  {| random := λ _, fraction 0 1; drawn := O;
     math_random := λ _, fraction a 2; math_drawn := O |}.

(** The grids after [generate] and one [iterate]. *)
Definition small_generation (a : Z) : option (list grid) :=
  match (g <- generate zero_seed small_options (js "seed") ;;
         iterate small_options ∅ 200 (Single g)) (host a) with
  | Ok (gs, _) => Some gs
  | _ => None
  end.

(** A run: [generate], one [iterate], then [fillEmptySpaces]. *)
Definition small_run (a : Z) : result (list grid * world) :=
  (g <- generate zero_seed small_options (js "seed") ;;
   gs <- iterate small_options ∅ 200 (Single g) ;;
   fillEmptySpaces small_options ∅ 10 gs) (host a).

Definition placed_words (r : result (list grid * world))
  : option (list (list jsstring)) :=
  match r with
  | Ok (gs, _) => Some ((λ g, q_word <$> questionsData g) <$> gs)
  | _ => None
  end.

(** * Specifications

    The notions that the properties are stated with. *)

(** ** Indices of a compilation *)

(** The bucket [lengths[len]] and the entry [letters[key]], empty when
    undefined. *)
Definition bucket (ls : list (list nat)) (len : nat) : list nat :=
  default [] (ls !! len).

Definition entry (m : gmap jsstring (list nat)) (key : jsstring) : list nat :=
  default [] (m !! key).

(** ** Selection *)

(** The matrix [g] is the first of the batch [l] with its hash. *)
Definition first_of_hash (l : list grid) (g : grid) : Prop :=
  ∃ i, l !! i = Some g
       ∧ ∀ j g', (j < i)%nat → l !! j = Some g' → hash g' ≠ hash g.

(** ** Cells *)

(** [matrix[y][x]] as a value. *)
Definition get (m : grid) (x y : Z) : option cell :=
  match nth_Z (rows m) y with
  | Some row => nth_Z row x
  | None => None
  end.

Definition get_at (m : grid) (p : Z * Z) : option cell := get m p.1 p.2.

(** The matrix after [matrix[y][x] = c]. *)
Definition put (m : grid) (x y : Z) (c : cell) : grid :=
  set_rows m
    (<[Z.to_nat y := <[Z.to_nat x := c]> (default [] (rows m !! Z.to_nat y))]>
       (rows m)).

(** The matrix [m'] is [m] with other cells. *)
Definition same_properties (m m' : grid) : Prop :=
  ∃ r, m' = set_rows m r.

(** The matrix has the dimensions of the options. *)
Definition dims_ok (o : options) (m : grid) : Prop :=
  length (rows m) = Z.to_nat (height o)
  ∧ Forall (λ r, length r = Z.to_nat (width o)) (rows m).

(** A sequence of writes [matrix[y][x] = f(matrix[y][x])]: [None] when one of
    the cells is undefined, which throws. *)
Fixpoint put_all (m : grid) (ws : list (Z * Z * (cell → cell)))
  : option grid :=
  match ws with
  | [] => Some m
  | (x, y, f) :: t =>
      match get m x y with
      | Some c => put_all (put m x y (f c)) t
      | None => None
      end
  end.

(** ** Placements *)

(** The cell [k] of a word that starts at [(x, y)]. *)
Definition cell_pos (horizontal x y k : Z) : Z * Z :=
  if truthy horizontal then (x + k, y) else (x, y + k).

Definition q_pos (q : question) (k : nat) : Z * Z :=
  cell_pos (q_horizontal q) (q_x q) (q_y q) (Z.of_nat k).


(** The placement lies inside the grid. *)
Definition in_bounds (o : options) (q : question) : Prop :=
  0 ≤ q_x q ∧ 0 ≤ q_y q
  ∧ (if truthy (q_horizontal q)
     then q_x q + Z.of_nat (length (q_word q)) ≤ width o
     else q_y q + Z.of_nat (length (q_word q)) ≤ height o).

(** The writes of a word: the letter and the flag of its orientation, cell
    by cell from the cell [i]. *)
Fixpoint writes_from (h x y i : Z) (ls : list jsstring)
  : list (Z * Z * (cell → cell)) :=
  match ls with
  | [] => []
  | l :: t =>
      ((cell_pos h x y i).1, (cell_pos h x y i).2,
       λ c, set_flag (set_letter c l) (1 + h))
      :: writes_from h x y (i + 1) t
  end.

(** The letters that [write_word] writes in [n] iterations from [i]. *)
Fixpoint written_letters (n : nat) (w : jsstring) (i : Z) : list jsstring :=
  match n with
  | O => []
  | S n' => normalizeLetter (charAt w i) :: written_letters n' w (i + 1)
  end.

(** ** The invariant of the grids *)

(** The cells of the placement carry its letters and the flag of its
    orientation, and its word is a word of the buckets. *)
Definition placed (o : options) (m : grid) (q : question) : Prop :=
  (q_horizontal q = 0 ∨ q_horizontal q = 1)
  ∧ words (compilation o) !! q_idx q = Some (q_word q)
  ∧ accepted (q_word q) = true
  ∧ ∀ k ch, q_word q !! k = Some ch →
      ∃ c, get_at m (q_pos q k) = Some c
           ∧ letter c = [ch] ∧ flag c (1 + q_horizontal q) = true.


(** The light invariant: the dimensions, and every placement inside. *)
Definition bounded (o : options) (m : grid) : Prop :=
  dims_ok o m ∧ ∀ q, q ∈ questionsData m → in_bounds o q.


(** ** The spaces of [fillEmptySpaces] *)

(** The cell [t] of the scanned row or column. *)
Definition line_pos (horizontal : bool) (fixed t : Z) : Z * Z :=
  if horizontal then (t, fixed) else (fixed, t).

(** Every cell of the space of a point is free of words of its
    orientation, and only its two ends can belong to a crossing word. *)
Definition valid_run (m : grid) (pt : point) : Prop :=
  let h := if p_horizontal pt then 1 else 0 in
  ∀ k, 0 ≤ k < p_size pt →
    ∃ c, get_at m (cell_pos h (p_x pt) (p_y pt) k) = Some c
         ∧ flag c (1 + h) = false
         ∧ (flag c (2 - h) = true → k = 0 ∨ k = p_size pt - 1).

(** The passes that a scanning loop needs from the position [p], and a
    bound of them for the positions of the grid. *)
Definition scan_need (o : options) (horizontal forward : bool) (p : Z) : nat :=
  let limit := if horizontal then width o else height o in
  if forward then S (Z.to_nat (limit - p)) else S (Z.to_nat (p + 1)).

Definition scan_bound (o : options) : nat :=
  S (Z.to_nat (Z.max (width o) (height o))).

(** The word ids of the buckets that the matrix has not used: every
    placement of [fillEmptySpaces] uses one of them. *)
Definition unused (o : options) (m : grid) : nat :=
  length (filter (λ i, i ∉ questions m) (concat (lengths (compilation o)))).

(** ** Reachable grids *)

Definition population_list (p : population) : list grid :=
  match p with
  | Single m => [m]
  | Many ms => ms
  end.

(** The grids that a generator produces: the empty grid of [generate], and
    the results of [iterate] and of [fillEmptySpaces] on produced grids,
    whatever the words ignored, the fuel and the numbers drawn. *)
Inductive reachable (o : options) : grid → Prop :=
  | reachable_generate : reachable o (empty_grid o)
  | reachable_iterate ig fuel pop w out w' m :
      (∀ g, g ∈ population_list pop → reachable o g) →
      iterate o ig fuel pop w = Ok (out, w') →
      m ∈ out →
      reachable o m
  | reachable_fill ig fuel ms w out w' m :
      (∀ g, g ∈ ms → reachable o g) →
      fillEmptySpaces o ig fuel ms w = Ok (out, w') →
      m ∈ out →
      reachable o m.

(** ** The grids of the small run *)

(** The host after [generate]. *)
Definition seeded_host : world :=
  {| random := zero_seed (js "seed"); drawn := O;
     math_random := math_random (host 0); math_drawn := O |}.

Definition small_iterated : list grid :=
  match iterate small_options ∅ 200 (Single (empty_grid small_options))
          seeded_host with
  | Ok (gs, _) => gs
  | _ => []
  end.

Definition small_filled : list grid :=
  match (gs <- iterate small_options ∅ 200
                 (Single (empty_grid small_options)) ;;
         fillEmptySpaces small_options ∅ 10 gs) seeded_host with
  | Ok (gs, _) => gs
  | _ => []
  end.

Definition small_grid : grid :=
  default (empty_grid small_options) (head small_filled).

(** * Properties *)

(** ** Compilation of the scenario *)

(** C5, as stated: the compilation of the scenario does not have the words
    CAT and DOG alone, whatever its indices are. *)
Lemma compile_cat_dog_not_two_words :
  ¬ (words (compile cat_dog) = [js "CAT"; js "DOG"]
     ∧ list_to_set (C := gset nat)
         (default [] (lengths (compile cat_dog) !! 3%nat)) = {[0%nat; 1%nat]}
     ∧ list_to_set (C := gset nat)
         (default [] (letters (compile cat_dog) !! letter_key 0 67))
       = {[0%nat]}
     ∧ list_to_set (C := gset nat)
         (default [] (letters (compile cat_dog) !! letter_key 0 68))
       = {[1%nat]}).
Proof. intros [H _]. vm_compute in H. discriminate H. Qed.

(** C5, amended: the strings without a space of every entry are words, so
    the words are CAT, feline, DOG and canine; the bucket of length 3 holds
    the ids 0 and 2, the letter index holds 0 at (0, 'C') and 2 at
    (0, 'D'). *)
Theorem compile_cat_dog :
  words (compile cat_dog) = [js "CAT"; js "feline"; js "DOG"; js "canine"]
  ∧ lengths (compile cat_dog) !! 3%nat = Some [0%nat; 2%nat]
  ∧ letters (compile cat_dog) !! letter_key 0 67 = Some [0%nat]
  ∧ letters (compile cat_dog) !! letter_key 0 68 = Some [2%nat].
Proof. repeat split; vm_compute; reflexivity. Qed.

(** ** Pseudo-random integers *)

Lemma floor_mul_range r n : 0 < n → 0 ≤ floor_mul r n < n.
Proof.
  intros Hn. unfold floor_mul.
  set (a := Z.of_N (dnum r)). set (b := Z.pos (dgap r)).
  assert (0 ≤ a) by (unfold a; lia). assert (0 < b) by (unfold b; lia).
  split.
  - apply Z.div_pos; nia.
  - apply Z.div_lt_upper_bound; nia.
Qed.

Lemma floor_mul_0 r : floor_mul r 0 = 0.
Proof. unfold floor_mul. rewrite Z.mul_0_r. apply Z.div_0_l. lia. Qed.

Lemma floor_mul_bit r : floor_mul r 2 = 0 ∨ floor_mul r 2 = 1.
Proof. pose proof (floor_mul_range r 2). lia. Qed.

Lemma floor_mul_fraction a b : 0 ≤ a < b → floor_mul (fraction a b) b = a.
Proof.
  intros H. unfold floor_mul, fraction. simpl.
  rewrite Z2N.id by lia. rewrite Z2Pos.id by lia.
  replace (a + (b - a)) with b by lia. apply Z.div_mul. lia.
Qed.

(** The start along the word keeps a word that fits inside the grid. *)
Lemma floor_mul_start r dim length :
  length ≤ dim →
  0 ≤ floor_mul r (dim - length) ∧ floor_mul r (dim - length) + length ≤ dim.
Proof.
  intros H. destruct (decide (dim - length = 0)) as [->|Hne].
  - rewrite floor_mul_0. lia.
  - pose proof (floor_mul_range r (dim - length)). lia.
Qed.

(** ** The start position *)

(** C1, as stated: with the default options, once the border flag is set a
    horizontal word can start on the row 11 of 22, away from both edges. *)
Lemma border_flag_does_not_pin :
  ¬ (∀ rx ry,
       snd (start_position empty_options true 1 3 rx ry) = 0
       ∨ snd (start_position empty_options true 1 3 rx ry)
         = height empty_options - 1).
Proof.
  intros H. specialize (H (fraction 0 1) (fraction 1 2)).
  vm_compute in H. destruct H; discriminate.
Qed.

(** C1, amended: while border mode is on and the border flag is not set, the
    coordinate across the word is pinned to an edge; once the flag is set,
    or without border mode, that coordinate is drawn in the whole dimension
    and every value of it can be drawn. The coordinate along the word keeps
    a word that fits inside the grid, in both cases. *)
Theorem start_position_by_phase o (flag : bool) horizontal length rx ry :
  let p := start_position o flag horizontal length rx ry in
  (border_mode o && negb flag = true →
     (truthy horizontal = true → snd p = 0 ∨ snd p = height o - 1)
     ∧ (truthy horizontal = false → fst p = 0 ∨ fst p = width o - 1))
  ∧ (border_mode o && negb flag = false →
     (truthy horizontal = true → 0 < height o →
        0 ≤ snd p < height o
        ∧ ∀ y0, 0 ≤ y0 < height o →
            ∃ ry', snd (start_position o flag horizontal length rx ry') = y0)
     ∧ (truthy horizontal = false → 0 < width o →
        0 ≤ fst p < width o
        ∧ ∀ x0, 0 ≤ x0 < width o →
            ∃ rx', fst (start_position o flag horizontal length rx' ry) = x0))
  ∧ (truthy horizontal = true → length ≤ width o →
       0 ≤ fst p ∧ fst p + length ≤ width o)
  ∧ (truthy horizontal = false → length ≤ height o →
       0 ≤ snd p ∧ snd p + length ≤ height o).
Proof.
  unfold start_position. repeat split.
  - intros Hh. rewrite H, Hh. simpl. destruct (floor_mul_bit ry) as [-> | ->]; lia.
  - intros Hh. rewrite H, Hh. simpl. destruct (floor_mul_bit rx) as [-> | ->]; lia.
  - rewrite H, H0. simpl. pose proof (floor_mul_range ry (height o)). lia.
  - rewrite H, H0. simpl. pose proof (floor_mul_range ry (height o)). lia.
  - intros y0 Hy. exists (fraction y0 (height o)). rewrite H, H0. simpl.
    apply floor_mul_fraction. lia.
  - rewrite H, H0. simpl. pose proof (floor_mul_range rx (width o)). lia.
  - rewrite H, H0. simpl. pose proof (floor_mul_range rx (width o)). lia.
  - intros x0 Hx. exists (fraction x0 (width o)). rewrite H, H0. simpl.
    apply floor_mul_fraction. lia.
  - rewrite H. destruct (border_mode o && negb flag); simpl;
      apply floor_mul_start; lia.
  - rewrite H. destruct (border_mode o && negb flag); simpl;
      pose proof (floor_mul_start rx (width o) length); lia.
  - rewrite H. destruct (border_mode o && negb flag); simpl;
      apply floor_mul_start; lia.
  - rewrite H. destruct (border_mode o && negb flag); simpl;
      pose proof (floor_mul_start ry (height o) length); lia.
Qed.

Lemma start_position_by_phase_witness :
  snd (start_position empty_options false 1 3 (fraction 0 1) (fraction 1 2))
  = height empty_options - 1.
Proof.
  pose proof (start_position_by_phase empty_options false 1 3
                (fraction 0 1) (fraction 1 2)) as [H _].
  destruct H as [H _]; [reflexivity |].
  destruct H as [H | H]; [reflexivity | discriminate H | exact H].
Defined.

(** ** The retry budget of [#generateQuestion] *)

Lemma generateQuestion_finished o ignored fuel intento m w :
  finish m = true →
  generateQuestion_from o ignored (S fuel) intento m w = Ok (m, w).
Proof. intros H. simpl. rewrite H. reflexivity. Qed.

Lemma budget_cases o intento m :
  (intento + 1 = finishAt o ∧ border_mode o = true ∧ borde m = false
   ∧ budget o intento m = Try 0 (set_borde m true))
  ∨ (intento + 1 = finishAt o ∧ ¬ (border_mode o = true ∧ borde m = false)
     ∧ budget o intento m = Finished (set_finish m true))
  ∨ (intento + 1 ≠ finishAt o ∧ budget o intento m = Try (intento + 1) m).
Proof.
  unfold budget. destruct (Z.eqb_spec (intento + 1) (finishAt o)) as [He | Hne].
  - destruct (border_mode o) eqn:Hb, (borde m) eqn:Hm; simpl.
    + right; left. repeat split; [done | intros [_ ?]; done].
    + left. done.
    + right; left. repeat split; [done | intros [? _]; done].
    + right; left. repeat split; [done | intros [? _]; done].
  - right; right. done.
Qed.

(** C7: a finished matrix is returned as it is by every call of
    [#generateQuestion]. On a matrix that is not finished every pass of the
    loop increments the counter. When the counter reaches [finishAt], either
    border mode is on and the border flag is not set, and then the flag is
    set, the counter restarts from 0 and the pass goes on with its attempt;
    or the matrix is marked as finished and returned at once, as a normal
    result. At any other value the pass goes on with its attempt. A rejected
    attempt starts the next pass with the counter and the matrix of this
    one. *)
Theorem retry_budget o ignored fuel intento m w :
  (finish m = true →
     generateQuestion_from o ignored (S fuel) intento m w = Ok (m, w))
  ∧ (finish m = false →
     (intento + 1 = finishAt o ∧ border_mode o = true ∧ borde m = false
      ∧ generateQuestion_from o ignored (S fuel) intento m w
        = (r <- attempt o ignored (set_borde m true) ;;
           match r with
           | Some m' => ret m'
           | None =>
               generateQuestion_from o ignored fuel 0 (set_borde m true)
           end) w)
     ∨ (intento + 1 = finishAt o
        ∧ ¬ (border_mode o = true ∧ borde m = false)
        ∧ generateQuestion_from o ignored (S fuel) intento m w
          = Ok (set_finish m true, w)
        ∧ ∀ fuel' intento' w',
            generateQuestion_from o ignored (S fuel') intento'
              (set_finish m true) w'
            = Ok (set_finish m true, w'))
     ∨ (intento + 1 ≠ finishAt o
        ∧ generateQuestion_from o ignored (S fuel) intento m w
          = (r <- attempt o ignored m ;;
             match r with
             | Some m' => ret m'
             | None => generateQuestion_from o ignored fuel (intento + 1) m
             end) w)).
Proof.
  split.
  - intros H. by apply generateQuestion_finished.
  - intros Hf. cbn [generateQuestion_from]. rewrite Hf.
    destruct (budget_cases o intento m)
      as [(He & Hb & Hm & ->) | [(He & Hn & ->) | (Hne & ->)]].
    + left. done.
    + right; left. split; [done |]. split; [done |]. split; [done |].
      intros fuel' intento' w'. by apply generateQuestion_finished.
    + right; right. done.
Qed.

Lemma retry_budget_witness :
  generateQuestion_from empty_options ∅ 1 0
    (set_finish (empty_grid empty_options) true) (host 0)
  = Ok (set_finish (empty_grid empty_options) true, host 0)
  ∧ generateQuestion_from empty_options ∅ 1 599
      (set_borde (empty_grid empty_options) true) (host 0)
    = Ok (set_finish (set_borde (empty_grid empty_options) true) true,
          host 0).
Proof.
  split.
  - destruct (retry_budget empty_options ∅ 0 0
                (set_finish (empty_grid empty_options) true) (host 0))
      as [H _].
    apply H. reflexivity.
  - destruct (retry_budget empty_options ∅ 0 599
                (set_borde (empty_grid empty_options) true) (host 0))
      as [_ H].
    destruct H as [(_ & _ & H & _) | [(_ & _ & H & _) | (H & _)]].
    + reflexivity.
    + discriminate H.
    + exact H.
    + exfalso. apply H. reflexivity.
Defined.

(** ** Exceptions *)

Lemma nth_Z_nil {A} i : nth_Z (@nil A) i = None.
Proof. unfold nth_Z. by destruct (i <? 0). Qed.

Lemma bind_throw {A B} (m : M A) (k : A → M B) w e :
  m w = Throw e → bind m k w = Throw e.
Proof. intros H. unfold bind. by rewrite H. Qed.

Lemma bind_ok {A B} (m : M A) (k : A → M B) w a w' :
  m w = Ok (a, w') → bind m k w = k a w'.
Proof. intros H. unfold bind. by rewrite H. Qed.

Lemma attempt_no_bucket o ig m w :
  lengths (compilation o) = [] → attempt o ig m w = Throw TypeError.
Proof.
  intros H. unfold attempt, bind, this_random. cbv beta iota. rewrite H.
  by rewrite nth_Z_nil.
Qed.

Lemma generateQuestion_no_bucket o ig fuel m w :
  lengths (compilation o) = [] → finish m = false → finishAt o ≠ 1 →
  generateQuestion o ig (S fuel) m w = Throw TypeError.
Proof.
  intros H Hf Hn. unfold generateQuestion. cbn [generateQuestion_from].
  rewrite Hf. unfold budget. destruct (Z.eqb_spec (0 + 1) (finishAt o)) as [He|_]; [lia |].
  apply bind_throw. by apply attempt_no_bucket.
Qed.

(** C8 fails on the empty compilation: the first attempt of the first
    [#generateQuestion] reads [lengths[length]], which is undefined, and
    calls [filter] on it. *)
Theorem iterate_empty_compilation_throws fuel w :
  iterate empty_options ∅ (S fuel) (Single (empty_grid empty_options)) w
  = Throw TypeError.
Proof.
  unfold iterate. apply bind_throw.
  change (Z.to_nat (solutionsPerIteration empty_options)) with 33%nat.
  change (Z.to_nat (wordsPerIteration empty_options)) with 2%nat.
  cbn [seq fmap list_fmap for_each repeat_M]. apply bind_throw.
  erewrite bind_ok by reflexivity.
  apply bind_throw. by apply generateQuestion_no_bucket.
Qed.

(** ** Reproducibility *)

(** C3 fails on [fillEmptySpaces], which draws from [Math.random]: with the
    same seed, dictionary and options, two hosts have the same grids after
    [generate] and [iterate], and two different final grids. *)
Theorem fillEmptySpaces_depends_on_host :
  small_generation 0 = small_generation 1
  ∧ is_Some (small_generation 0)
  ∧ placed_words (small_run 0) = Some [[js "AB"; js "ABA"; js "ACA"]]
  ∧ placed_words (small_run 1) = Some [[js "AB"; js "ACA"; js "ABA"]].
Proof.
  split; [vm_compute; reflexivity |].
  split; [vm_compute; eexists; reflexivity |].
  split; vm_compute; reflexivity.
Qed.

(** ** Sorting *)

Section StableSort.

Context {A : Type} (before : A → A → bool).
Hypothesis before_total : ∀ a b, before a b = false → before b a = true.

Lemma insert_sorted_perm a l : insert_sorted before a l ≡ₚ a :: l.
Proof.
  induction l as [| b t IH]; simpl.
  - reflexivity.
  - destruct (before a b).
    + reflexivity.
    + etrans; [apply perm_skip, IH | apply perm_swap].
Qed.

Lemma stable_sort_perm l : stable_sort before l ≡ₚ l.
Proof.
  induction l as [| a t IH]; simpl; [reflexivity |].
  etrans; [apply insert_sorted_perm | by apply perm_skip].
Qed.



End StableSort.


(** ** Selection *)

Lemma first_of_hash_app l x g : first_of_hash l g → first_of_hash (l ++ [x]) g.
Proof.
  intros (i & Hi & Hfirst). exists i.
  pose proof (lookup_lt_Some _ _ _ Hi) as Hlt. split.
  - by rewrite lookup_app_l.
  - intros j g' Hj Hg'. rewrite lookup_app_l in Hg' by lia. eauto.
Qed.

Lemma unique_solutions_fold (l : list grid) :
  let r := fold_left (λ '(uniqueSolutionsIndices, uniqueSolutions) matrix,
         if bool_decide (hash matrix ∈ uniqueSolutionsIndices)
         then (uniqueSolutionsIndices, uniqueSolutions)
         else (uniqueSolutionsIndices ++ [hash matrix],
               uniqueSolutions ++ [matrix])) l ([], []) in
  r.1 = hash <$> r.2 ∧ NoDup r.1
  ∧ (∀ g, g ∈ r.2 → first_of_hash l g)
  ∧ (∀ g, g ∈ l → hash g ∈ r.1).
Proof.
  induction l as [| x l IH] using rev_ind; simpl.
  - repeat split; [constructor | intros g Hg; by apply elem_of_nil in Hg ..].
  - rewrite fold_left_app. simpl.
    destruct (fold_left _ l ([], [])) as [idxs uniq]. simpl in IH.
    destruct IH as (E & ND & F & C). case_bool_decide as Hin; simpl.
    + repeat split; [done | done | |].
      * intros g Hg. by apply first_of_hash_app, F.
      * intros g [Hg | Hg]%elem_of_app; [by apply C |].
        apply list_elem_of_singleton in Hg. by subst.
    + repeat split.
      * by rewrite fmap_app, E.
      * apply NoDup_app. repeat split; [done | | apply NoDup_singleton].
        intros h Hh Hh'. apply list_elem_of_singleton in Hh'. by subst.
      * intros g [Hg | Hg]%elem_of_app; [by apply first_of_hash_app, F |].
        apply list_elem_of_singleton in Hg. subst g.
        exists (length l). split.
        -- by rewrite lookup_app_r, Nat.sub_diag.
        -- intros j g' Hj Hg'. rewrite lookup_app_l in Hg' by lia.
           intros Heq. apply Hin. rewrite <- Heq. apply C.
           by eapply list_elem_of_lookup_2.
      * intros g [Hg | Hg]%elem_of_app; apply elem_of_app; [left; by apply C |].
        apply list_elem_of_singleton in Hg. subst. right. by apply list_elem_of_singleton.
Qed.

Lemma unique_solutions_spec l :
  NoDup (hash <$> unique_solutions l)
  ∧ ∀ g, g ∈ unique_solutions l → first_of_hash l g.
Proof.
  unfold unique_solutions. destruct (unique_solutions_fold l) as (E & ND & F & _).
  split; [by rewrite <- E | done].
Qed.






(** ** Compilation *)

Lemma js_inj : Inj (=) (=) js.
Proof.
  assert (Inj (=) (=) (λ a : ascii, Z.of_N (N_of_ascii a))) as Hinj.
  { intros a b Hab. apply (inj Z.of_N) in Hab.
    rewrite <- (ascii_N_embedding a), <- (ascii_N_embedding b). by rewrite Hab. }
  intros s1 s2 H. unfold js in H. apply (inj (fmap _)) in H.
  rewrite <- (string_of_list_ascii_of_string s1),
    <- (string_of_list_ascii_of_string s2). by rewrite H.
Qed.

Lemma num_to_string_inj : Inj (=) (=) num_to_string.
Proof.
  intros a b H. unfold num_to_string in H. apply js_inj in H.
  by apply (inj pretty) in H.
Qed.

Lemma letter_key_inj i c i' c' :
  letter_key i c = letter_key i' c' → i = i' ∧ c = c'.
Proof.
  unfold letter_key. intros H. apply app_inj_tail in H as [H1 H2].
  apply num_to_string_inj in H1. split; [lia | done].
Qed.

Lemma fill_undefined_eq n ls :
  fill_undefined n ls = ls ++ replicate (S n - length ls) [].
Proof.
  unfold fill_undefined. generalize (S n) as k. intros k.
  induction k as [| k IH].
  - simpl. by rewrite app_nil_r.
  - rewrite seq_S, fold_left_app, IH. simpl.
    destruct (decide (length ls ≤ k)%nat) as [Hle | Hgt].
    + rewrite lookup_ge_None_2 by (rewrite length_app, length_replicate; lia).
      replace (S k - length ls)%nat with (S (k - length ls)) by lia.
      rewrite replicate_S_end. by rewrite app_assoc.
    + destruct ((ls ++ replicate (k - length ls) []) !! k) eqn:E.
      * by replace (S k - length ls)%nat with (k - length ls)%nat by lia.
      * apply lookup_ge_None_1 in E. rewrite length_app in E. lia.
Qed.

Lemma bucket_fill_undefined n ls len :
  bucket (fill_undefined n ls) len = bucket ls len.
Proof.
  rewrite fill_undefined_eq. unfold bucket.
  destruct (decide (len < length ls)%nat).
  - by rewrite lookup_app_l.
  - rewrite lookup_app_r by lia.
    rewrite (lookup_ge_None_2 ls) by lia.
    destruct (replicate _ _ !! _) eqn:E; [| done].
    by apply lookup_replicate in E as [-> _].
Qed.

Lemma fill_undefined_defined n ls : is_Some (fill_undefined n ls !! n).
Proof.
  rewrite fill_undefined_eq. apply lookup_lt_is_Some.
  rewrite length_app, length_replicate. lia.
Qed.

Lemma bucket_alter ls len idx len' x :
  is_Some (ls !! len) →
  x ∈ bucket (alter (λ b, b ++ [idx]) len ls) len'
  ↔ x ∈ bucket ls len' ∨ (len' = len ∧ x = idx).
Proof.
  intros [b Hb]. unfold bucket. destruct (decide (len' = len)) as [-> | Hne].
  - rewrite list_lookup_alter_eq, Hb. simpl.
    rewrite elem_of_app, list_elem_of_singleton. tauto.
  - rewrite list_lookup_alter_ne by done. tauto.
Qed.

Lemma entry_push_letter m key idx key' x :
  x ∈ entry (push_letter m key idx) key'
  ↔ x ∈ entry m key' ∨ (key' = key ∧ x = idx).
Proof.
  unfold entry, push_letter. destruct (decide (key' = key)) as [-> | Hne].
  - rewrite lookup_insert_eq. simpl.
    rewrite elem_of_app, list_elem_of_singleton. tauto.
  - rewrite lookup_insert_ne by done. tauto.
Qed.

Lemma entry_index_letters word : ∀ m i idx key x,
  x ∈ entry (index_letters m i word idx) key
  ↔ x ∈ entry m key
    ∨ (x = idx ∧ ∃ j c, word !! j = Some c ∧ key = letter_key (i + j) c).
Proof.
  induction word as [| c t IH]; intros m i idx key x; simpl.
  - split; [tauto |]. intros [H | (_ & j & c & H & _)]; [done |].
    by destruct j.
  - rewrite IH, entry_push_letter. split.
    + intros [[H | [-> ->]] | (-> & j & c' & Hj & ->)].
      * by left.
      * right. split; [done |]. exists O, c. by rewrite Nat.add_0_r.
      * right. split; [done |]. exists (S j), c'.
        split; [done |]. f_equal. lia.
    + intros [H | (-> & [| j] & c' & Hj & ->)].
      * by left; left.
      * simpl in Hj. injection Hj as ->. left; right. by rewrite Nat.add_0_r.
      * simpl in Hj. right. split; [done |]. exists j, c'.
        split; [done |]. f_equal. lia.
Qed.

Lemma index_word_lengths ix w idx len x :
  x ∈ bucket (i_lengths (index_word ix w idx)) len
  ↔ x ∈ bucket (i_lengths ix) len
    ∨ (x = idx ∧ accepted w = true ∧ length w = len).
Proof.
  unfold index_word. destruct (accepted w) eqn:Hacc; simpl.
  - destruct (i_lengths ix !! length w) eqn:E.
    + rewrite bucket_alter by (by rewrite E). intuition congruence.
    + rewrite bucket_alter by apply fill_undefined_defined.
      rewrite bucket_fill_undefined. intuition congruence.
  - intuition congruence.
Qed.

Lemma index_word_letters ix w idx key x :
  x ∈ entry (i_letters (index_word ix w idx)) key
  ↔ x ∈ entry (i_letters ix) key
    ∨ (x = idx ∧ accepted w = true
       ∧ ∃ j c, w !! j = Some c ∧ key = letter_key j c).
Proof.
  unfold index_word. destruct (accepted w) eqn:Hacc; simpl.
  - rewrite entry_index_letters. simpl. intuition.
  - intuition congruence.
Qed.

Lemma index_words_lengths ws : ∀ ix k len x,
  x ∈ bucket (i_lengths (index_words ix ws k)) len
  ↔ x ∈ bucket (i_lengths ix) len
    ∨ ∃ j w, ws !! j = Some w ∧ x = (k + j)%nat
             ∧ accepted w = true ∧ length w = len.
Proof.
  induction ws as [| w t IH]; intros ix k len x; simpl.
  - split; [tauto |]. intros [H | (j & w & H & _)]; [done |].
    by destruct j.
  - rewrite IH, index_word_lengths. split.
    + intros [[H | (-> & Ha & Hl)] | (j & w' & Hj & -> & Ha & Hl)].
      * by left.
      * right. exists O, w. by rewrite Nat.add_0_r.
      * right. exists (S j), w'. repeat split; [done | lia | done | done].
    + intros [H | ([| j] & w' & Hj & -> & Ha & Hl)].
      * by left; left.
      * simpl in Hj. injection Hj as ->. left; right. by rewrite Nat.add_0_r.
      * simpl in Hj. right. exists j, w'. repeat split; [done | lia | done | done].
Qed.

Lemma index_words_letters ws : ∀ ix k key x,
  x ∈ entry (i_letters (index_words ix ws k)) key
  ↔ x ∈ entry (i_letters ix) key
    ∨ ∃ j w, ws !! j = Some w ∧ x = (k + j)%nat ∧ accepted w = true
             ∧ ∃ i c, w !! i = Some c ∧ key = letter_key i c.
Proof.
  induction ws as [| w t IH]; intros ix k key x; simpl.
  - split; [tauto |]. intros [H | (j & w & H & _)]; [done |].
    by destruct j.
  - rewrite IH, index_word_letters. split.
    + intros [[H | (-> & Ha & Hl)] | (j & w' & Hj & -> & Ha & Hl)].
      * by left.
      * right. exists O, w. by rewrite Nat.add_0_r.
      * right. exists (S j), w'. repeat split; [done | lia | done | done].
    + intros [H | ([| j] & w' & Hj & -> & Ha & Hl)].
      * by left; left.
      * simpl in Hj. injection Hj as ->. left; right. by rewrite Nat.add_0_r.
      * simpl in Hj. right. exists j, w'. repeat split; [done | lia | done | done].
Qed.

Lemma indexOf_None l item : indexOf l item = None → item ∉ l.
Proof.
  induction l as [| h t IH]; simpl; intros H.
  - apply not_elem_of_nil.
  - unfold jsstring_eqb in H. case_bool_decide as Heq; [done |].
    destruct (indexOf t item) eqn:E; [done |].
    apply not_elem_of_cons. split; [congruence | by apply IH].
Qed.

Lemma push_unique_NoDup l item : NoDup l → NoDup (push_unique l item).1.
Proof.
  intros H. unfold push_unique. destruct (indexOf l item) eqn:E; simpl; [done |].
  apply NoDup_app. repeat split; [done | | apply NoDup_singleton].
  intros x Hx Hx'. apply list_elem_of_singleton in Hx'. subst.
  by apply indexOf_None in E.
Qed.

Lemma line_item_NoDup st item :
  NoDup (l_words st) ∧ NoDup (l_phrases st) →
  NoDup (l_words (line_item st item)) ∧ NoDup (l_phrases (line_item st item)).
Proof.
  intros [Hw Hp]. unfold line_item.
  destruct (1 <? Z.of_nat (length item)); [| done].
  destruct (no_space item).
  - pose proof (push_unique_NoDup (l_words st) item Hw).
    destruct (push_unique (l_words st) item). done.
  - pose proof (push_unique_NoDup (l_phrases st) item Hp).
    destruct (push_unique (l_phrases st) item). done.
Qed.

Lemma fold_line_item_NoDup line : ∀ st,
  NoDup (l_words st) ∧ NoDup (l_phrases st) →
  NoDup (l_words (fold_left line_item line st))
  ∧ NoDup (l_phrases (fold_left line_item line st)).
Proof.
  induction line as [| item t IH]; intros st H; simpl; [done |].
  by apply IH, line_item_NoDup.
Qed.

Lemma compile_line_NoDup g line :
  NoDup (g_words g) ∧ NoDup (g_phrases g) →
  NoDup (g_words (compile_line g line))
  ∧ NoDup (g_phrases (compile_line g line)).
Proof. intros H. unfold compile_line. simpl. by apply fold_line_item_NoDup. Qed.

Lemma fold_compile_line_NoDup data : ∀ g,
  NoDup (g_words g) ∧ NoDup (g_phrases g) →
  NoDup (g_words (fold_left compile_line data g))
  ∧ NoDup (g_phrases (fold_left compile_line data g)).
Proof.
  induction data as [| line t IH]; intros g H; simpl; [done |].
  by apply IH, compile_line_NoDup.
Qed.

Lemma compile_NoDup d :
  NoDup (words (compile d)) ∧ NoDup (phrases (compile d)).
Proof.
  unfold compile. simpl. apply fold_compile_line_NoDup. simpl.
  split; constructor.
Qed.

Lemma compile_lengths d len idx :
  idx ∈ bucket (lengths (compile d)) len
  ↔ ∃ w, words (compile d) !! idx = Some w
         ∧ accepted w = true ∧ length w = len.
Proof.
  unfold compile. simpl. rewrite index_words_lengths. simpl. split.
  - intros [H | (j & w & Hj & -> & Ha & Hl)].
    + unfold bucket in H. destruct len; by apply elem_of_nil in H.
    + by exists w.
  - intros (w & Hw & Ha & Hl). right. by exists idx, w.
Qed.

Lemma compile_letters d i c idx :
  idx ∈ entry (letters (compile d)) (letter_key i c)
  ↔ ∃ w, words (compile d) !! idx = Some w
         ∧ accepted w = true ∧ w !! i = Some c.
Proof.
  unfold compile. simpl. rewrite index_words_letters. simpl. split.
  - intros [H | (j & w & Hj & -> & Ha & i' & c' & Hi & Hk)].
    + unfold entry in H. rewrite lookup_empty in H. by apply elem_of_nil in H.
    + apply letter_key_inj in Hk as [-> ->]. by exists w.
  - intros (w & Hw & Ha & Hi). right. exists idx, w.
    repeat split; try done. by exists i, c.
Qed.

Lemma take_while_length {A} (f : A → bool) l :
  (length (take_while f l) ≤ length l)%nat.
Proof. induction l as [| a t IH]; simpl; [lia |]. destruct (f a); simpl; lia. Qed.

Lemma take_while_all {A} (f : A → bool) l :
  take_while f l = l ↔ Forall (λ a, f a = true) l.
Proof.
  induction l as [| a t IH]; simpl.
  - split; [constructor | done].
  - destruct (f a) eqn:E.
    + rewrite Forall_cons. split.
      * intros [= H]. split; [done | by apply IH].
      * intros [_ H]. f_equal. by apply IH.
    + split; [done |]. intros H. apply Forall_cons in H as [H _]. congruence.
Qed.

Lemma regex_match_length s m :
  regex_match s = Some m → (length m ≤ length s)%nat.
Proof.
  revert m. induction s as [| c t IH]; intros m; simpl; [done |].
  destruct (in_class c).
  - intros [= <-]. simpl. pose proof (take_while_length in_class t). lia.
  - intros H. apply IH in H. lia.
Qed.

Lemma accepted_spec s :
  accepted s = true
  ↔ Forall (λ c, in_class c = true) s ∧ (1 < length s)%nat.
Proof.
  unfold accepted, jsstring_eqb. destruct s as [| c t]; simpl.
  - split; [done | intros [_ H]; lia].
  - destruct (in_class c) eqn:E.
    + rewrite andb_true_iff, bool_decide_eq_true, Forall_cons, Z.ltb_lt.
      rewrite <- take_while_all. split.
      * intros [[= H] Hl]. repeat split; [done | done | lia].
      * intros [[_ H] Hl]. split; [by rewrite H | lia].
    + split.
      * destruct (regex_match t) as [m |] eqn:Em; [| done].
        rewrite andb_true_iff, bool_decide_eq_true. intros [-> _].
        apply regex_match_length in Em. simpl in Em. lia.
      * intros [H _]. apply Forall_cons in H as [H _]. congruence.
Qed.

(** C6, as stated: in the compilation of the scenario the word 1, feline,
    has length 6 and is in no bucket. *)
Lemma bucket_misses_lowercase_word :
  ¬ (∀ w len,
       w ∈ bucket (lengths (compile cat_dog)) len
       ↔ ∃ s, words (compile cat_dog) !! w = Some s ∧ length s = len).
Proof.
  intros H. destruct (H 1%nat 6%nat) as [_ H'].
  assert (1%nat ∈ bucket (lengths (compile cat_dog)) 6) as Hin.
  { apply H'. by exists (js "feline"). }
  vm_compute in Hin. by apply elem_of_nil in Hin.
Qed.

(** C6, amended: the words and the phrases of a compilation have no
    duplicates; a word id is in the bucket of [len] exactly when its word is
    accepted by the second loop (more than one character, all of them in
    A-Z, 0-9 or ÁÉÍÓÚÜÑ) and has length [len], and it is in the letter index
    at [(i, c)] exactly when its word is accepted and has [c] at [i]. *)
Theorem compile_consistent d :
  NoDup (words (compile d)) ∧ NoDup (phrases (compile d))
  ∧ (∀ w len,
       w ∈ bucket (lengths (compile d)) len
       ↔ ∃ s, words (compile d) !! w = Some s
              ∧ (Forall (λ c, in_class c = true) s ∧ (1 < length s)%nat)
              ∧ length s = len)
  ∧ (∀ w i c,
       w ∈ entry (letters (compile d)) (letter_key i c)
       ↔ ∃ s, words (compile d) !! w = Some s
              ∧ (Forall (λ c, in_class c = true) s ∧ (1 < length s)%nat)
              ∧ s !! i = Some c).
Proof.
  destruct (compile_NoDup d) as [Hw Hp]. repeat split; try done.
  - intros (s & Hs & Ha & Hl)%compile_lengths. exists s.
    by rewrite <- accepted_spec.
  - intros (s & Hs & Ha & Hl). apply compile_lengths. exists s.
    by rewrite accepted_spec.
  - intros (s & Hs & Ha & Hl)%compile_letters. exists s.
    by rewrite <- accepted_spec.
  - intros (s & Hs & Ha & Hl). apply compile_letters. exists s.
    by rewrite accepted_spec.
Qed.

(** ** Outcomes of the monadic code *)

Lemma bind_inv {A B} (m : M A) (k : A → M B) w b w' :
  bind m k w = Ok (b, w') →
  ∃ a w1, m w = Ok (a, w1) ∧ k a w1 = Ok (b, w').
Proof.
  unfold bind. destruct (m w) as [[a w1] | e |]; [| done | done].
  intros H. by exists a, w1.
Qed.

Lemma bind_converges {A B} (m : M A) (k : A → M B) w :
  m w ≠ Diverge → (∀ a w1, m w = Ok (a, w1) → k a w1 ≠ Diverge) →
  bind m k w ≠ Diverge.
Proof.
  unfold bind. intros Hm Hk. destruct (m w) as [[a w1] | e |]; [| done | done].
  by apply Hk.
Qed.

Lemma defined_converges {A} (x : option A) w : defined x w ≠ Diverge.
Proof. by destruct x. Qed.

Lemma cell_at_converges m x y w : cell_at m x y w ≠ Diverge.
Proof.
  unfold cell_at. apply bind_converges; [apply defined_converges |].
  intros. apply defined_converges.
Qed.

Lemma update_cell_converges m x y f w : update_cell m x y f w ≠ Diverge.
Proof.
  unfold update_cell. apply bind_converges; [apply defined_converges |].
  intros. apply bind_converges; [apply defined_converges | done].
Qed.

Lemma occupied_converges o m x y w : occupied o m x y w ≠ Diverge.
Proof.
  unfold occupied. apply bind_converges; [apply cell_at_converges | done].
Qed.

Lemma and_then_converges a (b : M bool) w :
  b w ≠ Diverge → and_then a b w ≠ Diverge.
Proof. by destruct a. Qed.

Lemma for_each_converges {A B} (f : A → M B) l :
  (∀ a w, a ∈ l → f a w ≠ Diverge) → ∀ w, for_each f l w ≠ Diverge.
Proof.
  induction l as [| a t IH]; intros Hf w; simpl; [done |].
  apply bind_converges; [apply Hf; by left |].
  intros b w1 _. apply bind_converges; [| done].
  apply IH. intros a' w' Ha'. apply Hf. by right.
Qed.

Lemma lift_converges {A} (r : result A) w : r ≠ Diverge → lift r w ≠ Diverge.
Proof. by destruct r. Qed.

Lemma selectSolutions_converges o l n : selectSolutions o l n ≠ Diverge.
Proof. unfold selectSolutions, set_length. by destruct (_ <? 0). Qed.

(** ** Termination of [fillEmptySpaces] *)

Lemma side_occupied_converges o m h b fixed p w :
  side_occupied o m h b fixed p w ≠ Diverge.
Proof.
  unfold side_occupied.
  destruct h, b; apply and_then_converges, occupied_converges.
Qed.

Lemma line_cell_converges m h fixed p w : line_cell m h fixed p w ≠ Diverge.
Proof. unfold line_cell. destruct h; apply cell_at_converges. Qed.

Lemma scan_converges o fuel : ∀ m horizontal forward fixed p w,
  (scan_need o horizontal forward p ≤ fuel)%nat →
  scan o fuel m horizontal forward fixed p w ≠ Diverge.
Proof.
  induction fuel as [| fuel IH]; intros m h fw fixed p w Hneed.
  - unfold scan_need in Hneed. destruct fw; lia.
  - simpl.
    destruct (if fw then _ <=? p else p <? 0) eqn:Hedge; [done |].
    apply bind_converges; [apply line_cell_converges |]. intros c w1 _.
    destruct (if h then partOfHorizontal c else partOfVertical c); [done |].
    destruct (if h then partOfVertical c else partOfHorizontal c); [done |].
    apply bind_converges; [apply side_occupied_converges |]. intros b1 w2 _.
    destruct b1; [done |].
    apply bind_converges; [apply side_occupied_converges |]. intros b2 w3 _.
    destruct b2; [done |].
    apply IH. unfold scan_need in *. destruct fw.
    + apply Z.leb_gt in Hedge. lia.
    + apply Z.ltb_ge in Hedge. lia.
Qed.

Lemma elem_of_Z_seq (z : Z) n : z ∈ (Z.of_nat <$> seq 0 n) → 0 ≤ z < Z.of_nat n.
Proof.
  intros (k & -> & Hk)%list_elem_of_fmap. apply elem_of_seq in Hk. lia.
Qed.

Lemma cell_points_converges o fuel m x y w :
  (scan_bound o ≤ fuel)%nat → 0 ≤ x < width o → 0 ≤ y < height o →
  cell_points o fuel m x y w ≠ Diverge.
Proof.
  intros Hfuel Hx Hy. unfold cell_points.
  apply bind_converges; [apply cell_at_converges |]. intros c w1 _.
  destruct (is_empty o c); [| done].
  apply bind_converges.
  { apply scan_converges. unfold scan_bound, scan_need in *. lia. }
  intros [x1 c1] w2 _. apply bind_converges.
  { apply scan_converges. unfold scan_bound, scan_need in *. lia. }
  intros [x2 c2] w3 _. apply bind_converges.
  { apply scan_converges. unfold scan_bound, scan_need in *. lia. }
  intros [y1 d1] w4 _. apply bind_converges.
  { apply scan_converges. unfold scan_bound, scan_need in *. lia. }
  intros [y2 d2] w5 _. done.
Qed.

Lemma scan_points_converges o fuel m w :
  (scan_bound o ≤ fuel)%nat → scan_points o fuel m w ≠ Diverge.
Proof.
  intros Hfuel. unfold scan_points. apply bind_converges; [| done].
  apply for_each_converges. intros x w1 Hx%elem_of_Z_seq.
  apply bind_converges; [| done].
  apply for_each_converges. intros y w2 Hy%elem_of_Z_seq.
  apply cell_points_converges; [done | lia | lia].
Qed.

Lemma fill_word_converges word : ∀ m h x y w,
  fill_word m word h x y w ≠ Diverge.
Proof.
  induction word as [| c t IH]; intros m h x y w; simpl; [done |].
  apply bind_converges; [apply update_cell_converges |]. intros. apply IH.
Qed.

Lemma end_matches_converges o m pt w : end_matches o m pt w ≠ Diverge.
Proof.
  unfold end_matches. apply bind_converges; [apply cell_at_converges |].
  intros. apply bind_converges; [apply cell_at_converges | done].
Qed.

Lemma place_point_converges o ig m pt w : place_point o ig m pt w ≠ Diverge.
Proof.
  unfold place_point. apply bind_converges; [apply end_matches_converges |].
  intros matches w1 _. destruct (space_words o ig m pt matches); [| done].
  destruct (0 <? _); [| done].
  apply bind_converges; [done |]. intros r w2 _.
  apply bind_converges; [apply defined_converges |]. intros idx w3 _.
  apply bind_converges; [apply defined_converges |]. intros word w4 _.
  apply bind_converges; [apply fill_word_converges | done].
Qed.

Lemma place_first_converges o ig pts : ∀ m w,
  place_first o ig m pts w ≠ Diverge.
Proof.
  induction pts as [| pt t IH]; intros m w; simpl; [done |].
  apply bind_converges; [apply place_point_converges |].
  intros [m' |] w1 _; [done | apply IH].
Qed.

(** ** Reading and writing cells *)

Lemma same_properties_refl m : same_properties m m.
Proof. exists (rows m). by destruct m. Qed.

Lemma same_properties_trans m1 m2 m3 :
  same_properties m1 m2 → same_properties m2 m3 → same_properties m1 m3.
Proof. intros [r1 ->] [r2 ->]. by exists r2. Qed.

Lemma same_properties_questions m m' :
  same_properties m m' →
  questions m' = questions m ∧ questionsData m' = questionsData m
  ∧ borde m' = borde m ∧ finish m' = finish m.
Proof. by intros [r ->]. Qed.

Lemma cell_at_spec m x y w :
  cell_at m x y w
  = match get m x y with Some c => Ok (c, w) | None => Throw TypeError end.
Proof.
  unfold cell_at, get, bind, defined.
  destruct (nth_Z (rows m) y) as [row |]; simpl; [| done].
  by destruct (nth_Z row x).
Qed.

Lemma cell_at_inv m x y w c w' :
  cell_at m x y w = Ok (c, w') → get m x y = Some c ∧ w' = w.
Proof. rewrite cell_at_spec. destruct (get m x y); [| done]. by intros [= -> ->]. Qed.

Lemma update_cell_spec m x y f w :
  update_cell m x y f w
  = match get m x y with
    | Some c => Ok (put m x y (f c), w)
    | None => Throw TypeError
    end.
Proof.
  unfold update_cell, get, put, bind, defined, nth_Z.
  destruct (y <? 0); simpl; [done |].
  destruct (rows m !! Z.to_nat y) as [row |]; simpl; [| done].
  by destruct (if x <? 0 then None else row !! Z.to_nat x).
Qed.

Lemma update_cell_inv m x y f w m' w' :
  update_cell m x y f w = Ok (m', w') →
  ∃ c, get m x y = Some c ∧ m' = put m x y (f c) ∧ w' = w.
Proof.
  rewrite update_cell_spec. destruct (get m x y) as [c |]; [| done].
  intros [= <- <-]. by exists c.
Qed.

Lemma get_Some_range m x y c : get m x y = Some c → 0 ≤ x ∧ 0 ≤ y.
Proof.
  unfold get, nth_Z. destruct (Z.ltb_spec y 0); [done |].
  destruct (rows m !! Z.to_nat y); [| done].
  destruct (Z.ltb_spec x 0); [done | lia].
Qed.

Lemma get_put m x y c c0 x' y' :
  get m x y = Some c0 →
  get (put m x y c) x' y' = if decide (x' = x ∧ y' = y) then Some c
                            else get m x' y'.
Proof.
  intros Hget. pose proof (get_Some_range _ _ _ _ Hget) as [Hx Hy].
  revert Hget. unfold get, put, nth_Z. simpl.
  destruct (Z.ltb_spec y 0); [lia |]. destruct (Z.ltb_spec x 0); [lia |].
  destruct (rows m !! Z.to_nat y) as [row |] eqn:Hrow; [| done]. simpl.
  intros Hc. destruct (Z.ltb_spec y' 0).
  { rewrite decide_False by lia. done. }
  destruct (decide (Z.to_nat y' = Z.to_nat y)) as [Hey | Hney].
  - rewrite Hey, list_lookup_insert_eq by (by eapply lookup_lt_Some).
    rewrite Hrow. destruct (Z.ltb_spec x' 0).
    { rewrite decide_False by lia. done. }
    destruct (decide (Z.to_nat x' = Z.to_nat x)) as [Hex | Hnex].
    + rewrite Hex, list_lookup_insert_eq by (by eapply lookup_lt_Some).
      rewrite decide_True by lia. done.
    + rewrite list_lookup_insert_ne by done.
      rewrite decide_False by lia. done.
  - rewrite list_lookup_insert_ne by done.
    rewrite decide_False by lia. done.
Qed.

Lemma put_same_properties m x y c : same_properties m (put m x y c).
Proof. by eexists. Qed.

Lemma fill_word_same_properties word : ∀ m h x y w m' w',
  fill_word m word h x y w = Ok (m', w') → same_properties m m' ∧ w' = w.
Proof.
  induction word as [| c t IH]; intros m h x y w m' w'; simpl.
  - intros [= <- <-]. split; [apply same_properties_refl | done].
  - intros (m1 & w1 & Hu & Hrest)%bind_inv.
    apply update_cell_inv in Hu as (c0 & _ & -> & ->).
    apply IH in Hrest as [Hs ->]. split; [| done].
    eapply same_properties_trans; [apply put_same_properties | done].
Qed.

Lemma nth_Z_elem_of {A} (l : list A) i a : nth_Z l i = Some a → a ∈ l.
Proof.
  unfold nth_Z. destruct (i <? 0); [done |]. apply list_elem_of_lookup_2.
Qed.

Lemma space_words_elem o ig m pt matches fit idx :
  space_words o ig m pt matches = Some fit → idx ∈ fit →
  (idx ∉ questions m) ∧ (idx ∉ ig)
  ∧ (∃ b, nth_Z (lengths (compilation o)) (p_size pt) = Some b ∧ idx ∈ b)
  ∧ ∀ key, key ∈ matches → idx ∈ default [] (letters (compilation o) !! key).
Proof.
  unfold space_words.
  destruct (nth_Z (lengths (compilation o)) (p_size pt)) as [b |] eqn:Hb;
    [| done].
  intros [= <-] Hin. apply list_elem_of_filter in Hin as [Hq Hin].
  split; [done |].
  assert (∀ (ms : list jsstring) (l : list nat),
            idx ∈ fold_left (λ fit key,
              match letters (compilation o) !! key with
              | Some wordsMatch => filter (λ w, w ∈ wordsMatch) fit
              | None => []
              end) ms l →
            idx ∈ l
            ∧ ∀ key, key ∈ ms →
                idx ∈ default [] (letters (compilation o) !! key)) as Hfold.
  { clear. induction ms as [| key t IH]; intros l; simpl.
    - intros H. split; [done |]. intros key Hk. by apply elem_of_nil in Hk.
    - intros H. apply IH in H as [H Ht].
      destruct (letters (compilation o) !! key) as [wm |] eqn:E.
      + apply list_elem_of_filter in H as [Hwm Hl]. split; [done |].
        intros key' [-> | Hk]%elem_of_cons; [by rewrite E | by apply Ht].
      + by apply elem_of_nil in H. }
  apply Hfold in Hin as [Hin Hkeys].
  apply list_elem_of_filter in Hin as [Hig Hin].
  split; [done |]. split; [by exists b | done].
Qed.

Lemma end_matches_world o m pt w matches w' :
  end_matches o m pt w = Ok (matches, w') → w' = w.
Proof.
  unfold end_matches. intros (c0 & w2 & [_ ->]%cell_at_inv & Hm)%bind_inv.
  apply bind_inv in Hm as (c1 & w3 & [_ ->]%cell_at_inv & Hm).
  by injection Hm.
Qed.

Lemma place_point_inv o ig m pt w m' w' :
  place_point o ig m pt w = Ok (Some m', w') →
  ∃ matches fit idx word m1,
    end_matches o m pt w = Ok (matches, w)
    ∧ space_words o ig m pt matches = Some fit
    ∧ idx ∈ fit
    ∧ words (compilation o) !! idx = Some word
    ∧ fill_word m word (p_horizontal pt) (p_x pt) (p_y pt) w' = Ok (m1, w')
    ∧ m' = add_question m1
             {| q_idx := idx; q_word := word;
                q_horizontal := if p_horizontal pt then 1 else 0;
                q_x := p_x pt; q_y := p_y pt |}.
Proof.
  unfold place_point. intros (matches & w1 & Hm & H)%bind_inv.
  pose proof (end_matches_world _ _ _ _ _ _ Hm) as ->.
  destruct (space_words o ig m pt matches) as [fit |] eqn:Hfit; [| done].
  destruct (0 <? Z.of_nat (length fit)); [| done].
  apply bind_inv in H as (r & w2 & Hr & H).
  apply bind_inv in H as (idx & w3 & Hidx & H).
  apply bind_inv in H as (word & w4 & Hword & H).
  apply bind_inv in H as (m1 & w5 & Hfill & H).
  destruct (nth_Z fit _) as [idx' |] eqn:Hn; [| done].
  injection Hidx as -> ->.
  destruct (words (compilation o) !! idx) as [word' |] eqn:Hw; [| done].
  injection Hword as -> ->.
  apply fill_word_same_properties in Hfill as Hsame. destruct Hsame as [_ ->].
  injection H as <- <-.
  exists matches, fit, idx, word, m1. repeat split; try done.
  by eapply nth_Z_elem_of.
Qed.

Lemma unused_decreases (S : gset nat) idx (l : list nat) :
  idx ∈ l → idx ∉ S →
  (length (filter (λ i, i ∉ {[idx]} ∪ S) l)
   < length (filter (λ i, i ∉ S) l))%nat.
Proof.
  intros Hin Hn.
  assert (∀ l' : list nat,
            (length (filter (λ i, i ∉ {[idx]} ∪ S) l')
             ≤ length (filter (λ i, i ∉ S) l'))%nat) as Hle.
  { induction l' as [| a t IH]; simpl; [done |].
    rewrite !filter_cons. destruct (decide (a ∉ {[idx]} ∪ S)) as [Ha | Ha].
    - rewrite decide_True by set_solver. simpl. lia.
    - destruct (decide (a ∉ S)); simpl; lia. }
  induction l as [| a t IH]; [by apply elem_of_nil in Hin |].
  rewrite !filter_cons. apply elem_of_cons in Hin as [<- | Hin].
  - rewrite decide_False by set_solver. rewrite decide_True by done.
    simpl. specialize (Hle t). lia.
  - specialize (IH Hin). destruct (decide (a ∉ {[idx]} ∪ S)) as [Ha | Ha].
    + rewrite decide_True by set_solver. simpl. lia.
    + destruct (decide (a ∉ S)); simpl; lia.
Qed.

Lemma place_point_unused o ig m pt w m' w' :
  place_point o ig m pt w = Ok (Some m', w') →
  (unused o m' < unused o m)%nat.
Proof.
  intros (matches & fit & idx & word & m1 & _ & Hfit & Hin & _ & Hfill & ->)
    %place_point_inv.
  apply fill_word_same_properties in Hfill as [Hsame _].
  apply same_properties_questions in Hsame as (Hq & _).
  eapply space_words_elem in Hfit as (Hnq & _ & (b & Hb & Hib) & _); [| done].
  unfold unused. simpl. rewrite Hq. apply unused_decreases; [| done].
  apply list_elem_of_In, in_concat. exists b.
  split; apply list_elem_of_In; [by eapply nth_Z_elem_of | done].
Qed.

Lemma place_first_unused o ig pts : ∀ m w m' w',
  place_first o ig m pts w = Ok (Some m', w') →
  (unused o m' < unused o m)%nat.
Proof.
  induction pts as [| pt t IH]; intros m w m' w'; simpl; [done |].
  intros ([m1 |] & w1 & Hp & H)%bind_inv.
  - injection H as <- <-. by eapply place_point_unused.
  - by eapply IH.
Qed.

Lemma fill_matrix_converges o ig n : ∀ fuel m w,
  (unused o m ≤ n)%nat → (scan_bound o + n < fuel)%nat →
  fill_matrix o ig fuel m w ≠ Diverge.
Proof.
  induction n as [| n IH]; intros fuel m w Hn Hfuel;
    (destruct fuel as [| fuel]; [lia |]); simpl.
  - apply bind_converges; [apply scan_points_converges; lia |].
    intros pts w1 _. apply bind_converges; [apply place_first_converges |].
    intros [m' |] w2 Hp; [| done].
    apply place_first_unused in Hp. lia.
  - apply bind_converges; [apply scan_points_converges; lia |].
    intros pts w1 _. apply bind_converges; [apply place_first_converges |].
    intros [m' |] w2 Hp; [| done].
    apply place_first_unused in Hp. apply IH; lia.
Qed.

(** C9: [fillEmptySpaces] terminates on every array of matrices: with
    enough fuel for the loops, and with any larger amount, the outcome is a
    result or an exception. Every pass that places a word uses a word id of
    the buckets that the matrix had not used, so the passes are bounded by
    the number of these ids. *)
Theorem fillEmptySpaces_terminates o ig matrices w :
  ∃ fuel, ∀ fuel', (fuel ≤ fuel')%nat →
    fillEmptySpaces o ig fuel' matrices w ≠ Diverge.
Proof.
  exists (S (scan_bound o + length (concat (lengths (compilation o))))).
  intros fuel' Hfuel. unfold fillEmptySpaces.
  apply bind_converges.
  - apply for_each_converges. intros m w1 _.
    apply (fill_matrix_converges o ig
             (length (concat (lengths (compilation o))))); [| lia].
    unfold unused. apply length_filter.
  - intros filled w1 _. apply lift_converges, selectSolutions_converges.
Qed.

(** ** Placements and cells *)

Lemma dims_ok_get o m x y c :
  dims_ok o m → get m x y = Some c → 0 ≤ x < width o ∧ 0 ≤ y < height o.
Proof.
  intros [Hh Hw] Hget. pose proof (get_Some_range _ _ _ _ Hget) as [Hx Hy].
  revert Hget. unfold get, nth_Z.
  destruct (Z.ltb_spec y 0); [lia |]. destruct (Z.ltb_spec x 0); [lia |].
  destruct (rows m !! Z.to_nat y) as [row |] eqn:Hrow; [| done].
  intros Hc. apply lookup_lt_Some in Hc.
  pose proof (lookup_lt_Some _ _ _ Hrow) as Hlt.
  rewrite Forall_forall in Hw. specialize (Hw row).
  rewrite Hw in Hc by (by eapply list_elem_of_lookup_2). lia.
Qed.

Lemma dims_ok_put o m x y c : dims_ok o m → dims_ok o (put m x y c).
Proof.
  intros [Hh Hw]. unfold dims_ok, put. simpl. split.
  - by rewrite length_insert.
  - destruct (rows m !! Z.to_nat y) as [row |] eqn:Hrow; simpl.
    + apply Forall_insert; [done |].
      rewrite length_insert. rewrite Forall_forall in Hw. apply Hw.
      by eapply list_elem_of_lookup_2.
    + rewrite list_insert_ge; [done |]. by apply lookup_ge_None.
Qed.

Lemma cell_pos_inj h x y a b : cell_pos h x y a = cell_pos h x y b → a = b.
Proof. unfold cell_pos. destruct (truthy h); intros [= H]; lia. Qed.

Lemma get_at_put m p c c0 p' :
  get_at m p = Some c0 →
  get_at (put m p.1 p.2 c) p' = if decide (p' = p) then Some c else get_at m p'.
Proof.
  intros H. unfold get_at. rewrite (get_put _ _ _ _ c0) by done.
  destruct p as [x y], p' as [x' y']. simpl.
  destruct (decide (x' = x ∧ y' = y)) as [[-> ->] | Hne].
  - by rewrite decide_True.
  - rewrite decide_False; [done |]. intros [= -> ->]. by apply Hne.
Qed.

Lemma put_all_writes ls : ∀ m h x y i m1,
  put_all m (writes_from h x y i ls) = Some m1 →
  same_properties m m1
  ∧ (∀ o, dims_ok o m → dims_ok o m1)
  ∧ (∀ k l, ls !! k = Some l →
       ∃ c, get_at m (cell_pos h x y (i + Z.of_nat k)) = Some c
            ∧ get_at m1 (cell_pos h x y (i + Z.of_nat k))
              = Some (set_flag (set_letter c l) (1 + h)))
  ∧ (∀ p, (∀ k, (k < length ls)%nat → cell_pos h x y (i + Z.of_nat k) ≠ p) →
       get_at m1 p = get_at m p).
Proof.
  induction ls as [| l t IH]; intros m h x y i m1; simpl.
  - intros [= <-]. split; [apply same_properties_refl |].
    split; [done |]. split; [| done]. intros k l Hk. by destruct k.
  - destruct (get m (cell_pos h x y i).1 (cell_pos h x y i).2) as [c |] eqn:Hc;
      [| done].
    intros Hrest. apply IH in Hrest as (Hs & Hd & Hin & Hout).
    assert (∀ p, p ≠ cell_pos h x y i →
              get_at (put m (cell_pos h x y i).1 (cell_pos h x y i).2
                        (set_flag (set_letter c l) (1 + h))) p
              = get_at m p) as Hother.
    { intros p Hp. rewrite (get_at_put _ _ _ c) by done.
      by rewrite decide_False. }
    split; [| split; [| split]].
    + eapply same_properties_trans; [apply put_same_properties | done].
    + intros o Ho. by apply Hd, dims_ok_put.
    + intros [| k] l' Hk; simpl in Hk.
      * injection Hk as <-. exists c. rewrite Z.add_0_r. split; [done |].
        rewrite Hout.
        -- rewrite (get_at_put _ _ _ c) by done. by rewrite decide_True.
        -- intros k _ Heq. apply cell_pos_inj in Heq. lia.
      * destruct (Hin k l' Hk) as (c' & Hc' & Hm1).
        replace (i + Z.of_nat (S k)) with (i + 1 + Z.of_nat k) by lia.
        exists c'. split; [| done]. rewrite <- Hc'. symmetry. apply Hother.
        intros Heq. apply cell_pos_inj in Heq. lia.
    + intros p Hp. rewrite Hout.
      * apply Hother. intros ->. apply (Hp O); [lia |]. by rewrite Z.add_0_r.
      * intros k Hk Heq. apply (Hp (S k)); [lia |].
        by replace (i + Z.of_nat (S k)) with (i + 1 + Z.of_nat k) by lia.
Qed.

Lemma write_word_spec n : ∀ m wd h x y i w,
  write_word n m (Some wd) h x y i w
  = match put_all m (writes_from h x y i (written_letters n wd i)) with
    | Some m' => Ok (m', w)
    | None => Throw TypeError
    end.
Proof.
  induction n as [| n IH]; intros m wd h x y i w; simpl; [done |].
  unfold bind at 1. simpl. unfold cell_pos.
  destruct (truthy h) eqn:Hh; simpl.
  - unfold bind at 1. rewrite update_cell_spec.
    destruct (get m (x + i) y) as [c |]; [| done].
    unfold bind, ret. apply IH.
  - unfold bind at 1. unfold ret at 1. unfold bind at 1.
    rewrite update_cell_spec.
    destruct (get m x (y + i)) as [c |]; [| done]. apply IH.
Qed.

Lemma fill_word_spec word : ∀ m (hb : bool) x y i w,
  fill_word m word hb
    (cell_pos (if hb then 1 else 0) x y i).1
    (cell_pos (if hb then 1 else 0) x y i).2 w
  = match put_all m (writes_from (if hb then 1 else 0) x y i
                       ((λ c, [c]) <$> word)) with
    | Some m' => Ok (m', w)
    | None => Throw TypeError
    end.
Proof.
  induction word as [| c t IH]; intros m hb x y i w; [done |].
  destruct hb; cbn [fill_word fmap list_fmap writes_from put_all];
    unfold bind; rewrite update_cell_spec; unfold cell_pos; simpl.
  - destruct (get m (x + i) y) as [c0 |]; [| done].
    specialize (IH (put m (x + i) y (set_flag (set_letter c0 [c]) 2))
                  true x y (i + 1) w).
    unfold cell_pos in IH. simpl in IH.
    replace (x + i + 1) with (x + (i + 1)) by lia. apply IH.
  - destruct (get m x (y + i)) as [c0 |]; [| done].
    specialize (IH (put m x (y + i) (set_flag (set_letter c0 [c]) 1))
                  false x y (i + 1) w).
    unfold cell_pos in IH. simpl in IH.
    replace (y + i + 1) with (y + (i + 1)) by lia. apply IH.
Qed.





(** ** The invariant of the placements *)








(** ** What a successful attempt of [#generateQuestion] has checked *)

Lemma add_idx_neighbours_ok o m h x y i st :
  s_ok (neighbours o m h x y i st) = s_ok st
  ∧ s_matches (neighbours o m h x y i st) = s_matches st.
Proof. unfold neighbours. by destruct (truthy h). Qed.

Lemma push_match_ok o i c st :
  s_ok (push_match o i c st) = s_ok st
  ∧ (∀ key, key ∈ s_matches st → key ∈ s_matches (push_match o i c st))
  ∧ (is_empty o c = false →
     num_to_string i ++ letter c ∈ s_matches (push_match o i c st)).
Proof.
  unfold push_match. destruct (is_empty o c); simpl.
  - done.
  - split; [done |]. split.
    + intros key Hk. apply elem_of_app. by left.
    + intros _. apply elem_of_app. right. by apply list_elem_of_singleton.
Qed.

Lemma span_loop_inv o n : ∀ m h x y i st w st' w',
  span_loop o n m h x y i st w = Ok (st', w') → s_ok st' = true →
  w' = w ∧ s_ok st = true
  ∧ (∀ key, key ∈ s_matches st → key ∈ s_matches st')
  ∧ ∀ k, (k < n)%nat →
      ∃ c, get_at m (cell_pos h x y (i + Z.of_nat k)) = Some c
           ∧ flag c (1 + h) = false
           ∧ (is_empty o c = false →
              num_to_string (i + Z.of_nat k) ++ letter c ∈ s_matches st').
Proof.
  induction n as [| n IH]; intros m h x y i st w st' w'; simpl.
  - intros [= <- <-] Hok. repeat split; try done. intros k Hk. lia.
  - unfold cell_pos. destruct (truthy h) eqn:Hh; simpl.
    + intros (b1 & w1 & Hb1 & H)%bind_inv Hok.
      apply bind_inv in Hb1 as (c & w2 & [Hc ->]%cell_at_inv & Hb1).
      injection Hb1 as <- <-.
      destruct (flag c (1 + h)) eqn:Hf.
      { injection H as <- <-. done. }
      apply bind_inv in H as (b2 & w3 & Hb2 & H). injection Hb2 as <- <-.
      apply bind_inv in H as (st2 & w4 & Hst2 & H).
      apply bind_inv in Hst2 as (c' & w5 & [Hc' ->]%cell_at_inv & Hst2).
      injection Hst2 as <- <-.
      apply bind_inv in H as (st3 & w6 & Hst3 & H). injection Hst3 as <- <-.
      rewrite Hc in Hc'. injection Hc' as <-.
      destruct (IH _ _ _ _ _ _ _ _ _ H Hok) as (-> & Hok3 & Hsub & Hcells).
      destruct (add_idx_neighbours_ok o m h x y i st) as [Hn1 Hn2].
      destruct (push_match_ok o i c (neighbours o m h x y i st))
        as (Hp1 & Hp2 & Hp3).
      split; [done |]. split; [congruence |]. split.
      * intros key Hk. apply Hsub, Hp2. by rewrite Hn2.
      * intros [| k] Hk.
        -- exists c. rewrite Z.add_0_r. split; [done |]. split; [done |].
           intros He. by apply Hsub, Hp3.
        -- destruct (Hcells k) as (c1 & Hc1 & Hf1 & Hm1); [lia |].
           replace (i + Z.of_nat (S k)) with (i + 1 + Z.of_nat k) by lia.
           exists c1. unfold cell_pos in Hc1. rewrite Hh in Hc1. done.
    + intros (b1 & w1 & Hb1 & H)%bind_inv Hok. injection Hb1 as <- <-.
      apply bind_inv in H as (b2 & w3 & Hb2 & H).
      apply bind_inv in Hb2 as (c & w2 & [Hc ->]%cell_at_inv & Hb2).
      injection Hb2 as <- <-.
      destruct (flag c (1 + h)) eqn:Hf.
      { injection H as <- <-. done. }
      apply bind_inv in H as (st2 & w4 & Hst2 & H). injection Hst2 as <- <-.
      apply bind_inv in H as (st3 & w6 & Hst3 & H).
      apply bind_inv in Hst3 as (c' & w5 & [Hc' ->]%cell_at_inv & Hst3).
      injection Hst3 as <- <-.
      rewrite Hc in Hc'. injection Hc' as <-.
      destruct (IH _ _ _ _ _ _ _ _ _ H Hok) as (-> & Hok3 & Hsub & Hcells).
      destruct (add_idx_neighbours_ok o m h x y i st) as [Hn1 Hn2].
      destruct (push_match_ok o i c (neighbours o m h x y i st))
        as (Hp1 & Hp2 & Hp3).
      split; [done |]. split; [congruence |]. split.
      * intros key Hk. apply Hsub, Hp2. by rewrite Hn2.
      * intros [| k] Hk.
        -- exists c. rewrite Z.add_0_r. split; [done |]. split; [done |].
           intros He. by apply Hsub, Hp3.
        -- destruct (Hcells k) as (c1 & Hc1 & Hf1 & Hm1); [lia |].
           replace (i + Z.of_nat (S k)) with (i + 1 + Z.of_nat k) by lia.
           exists c1. unfold cell_pos in Hc1. rewrite Hh in Hc1. done.
Qed.

Lemma draw_word_inv n : ∀ m palabras w idx w',
  draw_word n m palabras w = Ok (Some idx, w') →
  idx ∈ palabras ∧ idx ∉ questions m.
Proof.
  induction n as [| n IH]; intros m palabras w idx w'; simpl; [done |].
  intros (r & w1 & _ & H)%bind_inv. destruct n as [| n']; [done |].
  destruct (nth_Z palabras _) as [i |] eqn:Hi; [| by eapply IH].
  case_bool_decide as Hin; [by eapply IH |].
  injection H as <- <-. split; [by eapply nth_Z_elem_of | done].
Qed.

Lemma agrees_elem o matches idx key :
  agrees o matches idx = true → key ∈ matches →
  idx ∈ entry (letters (compilation o)) key.
Proof.
  unfold agrees. rewrite forallb_forall. intros H Hk.
  apply list_elem_of_In in Hk. specialize (H key Hk). unfold entry.
  destruct (letters (compilation o) !! key); [| done].
  by apply bool_decide_eq_true in H.
Qed.

Lemma target_length_ge_2 o placed h r : 2 ≤ target_length o placed h r.
Proof. unfold target_length. lia. Qed.

Lemma this_random_inv w r w' :
  this_random w = Ok (r, w') →
  r = random w (drawn w) ∧ random w' = random w ∧ drawn w' = S (drawn w).
Proof. by intros [= <- <-]. Qed.

Lemma attempt_inv o ig m w m' w' :
  attempt o ig m w = Ok (Some m', w') →
  ∃ h len x y idx wd m1 b,
    (h = 0 ∨ h = 1) ∧ 2 ≤ len
    ∧ len = target_length o (length (questionsData m)) h
              (random w (S (drawn w)))
    ∧ nth_Z (lengths (compilation o)) len = Some b
    ∧ idx ∈ b ∧ (idx ∉ questions m) ∧ (idx ∉ ig)
    ∧ words (compilation o) !! idx = Some wd
    ∧ (∀ k, (k < Z.to_nat len)%nat →
         ∃ c, get_at m (cell_pos h x y (Z.of_nat k)) = Some c
              ∧ flag c (1 + h) = false
              ∧ (is_empty o c = false →
                 idx ∈ entry (letters (compilation o))
                         (num_to_string (Z.of_nat k) ++ letter c)))
    ∧ put_all m (writes_from h x y 0 (written_letters (Z.to_nat len) wd 0))
      = Some m1
    ∧ m' = border_coverage o
             (add_question m1 {| q_idx := idx; q_word := wd;
                                 q_horizontal := h; q_x := x; q_y := y |}).
Proof.
  unfold attempt.
  intros (rh & w1 & (-> & Hr1 & Hd1)%this_random_inv & H)%bind_inv.
  apply bind_inv in H as (rl & w2 & (-> & Hr2 & Hd2)%this_random_inv & H).
  rewrite Hr1, Hd1 in *.
  set (h := floor_mul (random w (drawn w)) 2) in *.
  set (len := target_length o (length (questionsData m)) h
                (random w (S (drawn w)))) in *.
  apply bind_inv in H as (b & w3 & Hb & H).
  destruct (nth_Z (lengths (compilation o)) len) as [b' |] eqn:Hbucket;
    [| done].
  injection Hb as <- <-.
  apply bind_inv in H as (rx & w4 & _ & H).
  apply bind_inv in H as (ry & w5 & _ & H).
  destruct (start_position o (borde m) h len rx ry) as [x y].
  apply bind_inv in H as (bad & w6 & _ & H).
  apply bind_inv in H as (st & w7 & Hst & H).
  cbn [s_ok] in Hst.
  destruct (s_ok st && negb (adjacent_without_crossing st)) eqn:Hok; [| done].
  apply andb_true_iff in Hok as [Hok _].
  destruct (negb bad); [| by injection Hst as <- <-].
  apply span_loop_inv in Hst as (-> & _ & _ & Hcells); [| done].
  set (pal := filter (λ palabra, palabra ∉ ig) b') in *.
  assert (∃ palabras,
            (∀ i, i ∈ palabras → i ∈ pal)
            ∧ (∀ i key, i ∈ palabras → key ∈ s_matches st →
                 i ∈ entry (letters (compilation o)) key)
            ∧ ∃ picked w8,
                draw_word 100 m palabras w6 = Ok (picked, w8)
                ∧ match picked with
                  | None => ret None
                  | Some idx =>
                      m1 <- write_word (Z.to_nat len) m
                              (words (compilation o) !! idx) h x y 0 ;;
                      wd <- defined (words (compilation o) !! idx) ;;
                      ret (Some (border_coverage o
                             (add_question m1
                                {| q_idx := idx; q_word := wd;
                                   q_horizontal := h; q_x := x;
                                   q_y := y |})))
                  end w8 = Ok (Some m', w'))
    as (palabras & Hsub & Hagree & picked & w8 & Hdraw & H').
  { destruct (0 <? Z.of_nat (length (s_matches st))) eqn:Hm.
    - cbv beta iota zeta in H. rewrite andb_true_l in H.
      destruct (0 <? _) in H; [| done].
      apply bind_inv in H as (picked & w8 & Hdraw & H).
      eexists. split; [| split; [| by exists picked, w8]].
      + intros i Hi. by apply list_elem_of_filter in Hi as [_ Hi].
      + intros i key Hi Hkey. apply list_elem_of_filter in Hi as [Hi _].
        apply Is_true_true in Hi. by eapply agrees_elem.
    - destruct (border_mode o && borde m); [done |].
      cbv beta iota zeta in H. rewrite andb_true_l in H.
      destruct (0 <? _) in H; [| done].
      apply bind_inv in H as (picked & w8 & Hdraw & H).
      exists pal. split; [done |]. split; [| by exists picked, w8].
      intros i key _ Hkey. destruct (s_matches st); [| done].
      by apply elem_of_nil in Hkey. }
  clear H. destruct picked as [idx |]; [| done].
  apply draw_word_inv in Hdraw as [Hin Hnq].
  apply bind_inv in H' as (m1 & w9 & Hwrite & H').
  destruct (words (compilation o) !! idx) as [wd |] eqn:Hwd.
  2:{ apply bind_inv in H' as (? & ? & ? & _). done. }
  apply bind_inv in H' as (wd' & w10 & [= <- <-] & H').
  injection H' as <- <-.
  rewrite write_word_spec in Hwrite.
  destruct (put_all m _) as [m1' |] eqn:Hput; [| done].
  injection Hwrite as <- <-.
  apply Hsub in Hin as Hpal. apply list_elem_of_filter in Hpal as [Hig Hb].
  exists h, len, x, y, idx, wd, m1', b'.
  split; [apply floor_mul_bit |].
  split; [apply target_length_ge_2 |].
  repeat (split; [done |]). split; [| done].
  intros k Hk. destruct (Hcells k Hk) as (c & Hc & Hf & Hm).
  exists c. rewrite Z.add_0_l in Hc, Hm. split; [done |]. split; [done |].
  intros He. by apply Hagree, Hm.
Qed.

(** ** A placement of [#generateQuestion] keeps the invariant *)





Lemma nth_Z_bucket (ls : list (list nat)) len b idx :
  nth_Z ls len = Some b → idx ∈ b → idx ∈ bucket ls (Z.to_nat len).
Proof.
  unfold nth_Z, bucket. destruct (len <? 0); [done |]. by intros ->.
Qed.



(** ** The spaces that [fillEmptySpaces] finds *)

Lemma and_then_inv a (b : M bool) w r w' :
  and_then a b w = Ok (r, w') →
  (a = false ∧ r = false ∧ w' = w) ∨ (a = true ∧ b w = Ok (r, w')).
Proof. destruct a; simpl; [by right |]. intros [= <- <-]. by left. Qed.

Lemma occupied_inv o m x y w r w' :
  occupied o m x y w = Ok (r, w') → w' = w.
Proof.
  unfold occupied. intros (c & w1 & [_ ->]%cell_at_inv & H)%bind_inv.
  by injection H.
Qed.

Lemma side_occupied_world o m hb b fixed p w r w' :
  side_occupied o m hb b fixed p w = Ok (r, w') → w' = w.
Proof.
  unfold side_occupied.
  destruct hb, b; intros [(_ & _ & ->) | [_ H]]%and_then_inv; try done;
    by eapply occupied_inv.
Qed.

Lemma scan_inv o fuel : ∀ m hb fw fixed p w e col w',
  scan o fuel m hb fw fixed p w = Ok ((e, col), w') →
  w' = w
  ∧ ∀ t, (if fw then p ≤ t ≤ e else e ≤ t ≤ p) →
      ∃ c, get_at m (line_pos hb fixed t) = Some c
           ∧ (if hb then partOfHorizontal c else partOfVertical c) = false
           ∧ ((if hb then partOfVertical c else partOfHorizontal c) = true →
              t = e).
Proof.
  induction fuel as [| fuel IH]; intros m hb fw fixed p w e col w'; simpl;
    [done |].
  destruct (if fw then _ <=? p else p <? 0) eqn:Hedge.
  { intros [= <- <- <-]. split; [done |]. intros t Ht.
    destruct fw; [apply Z.leb_le in Hedge | apply Z.ltb_lt in Hedge]; lia. }
  intros (c & w1 & Hc & H)%bind_inv.
  assert (get_at m (line_pos hb fixed p) = Some c ∧ w1 = w) as [Hget ->].
  { unfold line_cell, line_pos in *. destruct hb; by apply cell_at_inv in Hc. }
  destruct (if hb then partOfHorizontal c else partOfVertical c) eqn:Hsame.
  { injection H as <- <- <-. split; [done |]. intros t Ht. destruct fw; lia. }
  destruct (if hb then partOfVertical c else partOfHorizontal c) eqn:Hcross.
  { injection H as <- <- <-. split; [done |]. intros t Ht.
    assert (t = p) as -> by (destruct fw; lia). by exists c. }
  apply bind_inv in H as (b1 & w2 & ->%side_occupied_world & H).
  destruct b1.
  { injection H as <- <- <-. split; [done |]. intros t Ht. destruct fw; lia. }
  apply bind_inv in H as (b2 & w3 & ->%side_occupied_world & H).
  destruct b2.
  { injection H as <- <- <-. split; [done |]. intros t Ht. destruct fw; lia. }
  apply IH in H as [-> Hrec]. split; [done |]. intros t Ht.
  destruct (decide (t = p)) as [-> | Hne].
  - exists c. rewrite Hcross. done.
  - apply Hrec. destruct fw; lia.
Qed.

Lemma cell_points_valid o fuel m x y w pts w' :
  cell_points o fuel m x y w = Ok (pts, w') → ∀ pt, pt ∈ pts → valid_run m pt.
Proof.
  unfold cell_points. intros (c & w1 & _ & H)%bind_inv.
  destruct (is_empty o c).
  2:{ injection H as <- <-. intros pt Hpt. by apply elem_of_nil in Hpt. }
  apply bind_inv in H as ([x1 c1] & w2 & [_ Hleft]%scan_inv & H).
  apply bind_inv in H as ([x2 c2] & w3 & [_ Hright]%scan_inv & H).
  apply bind_inv in H as ([y1 d1] & w4 & [_ Hup]%scan_inv & H).
  apply bind_inv in H as ([y2 d2] & w5 & [_ Hdown]%scan_inv & H).
  injection H as <- <-. intros pt Hpt.
  apply elem_of_app in Hpt as [Hpt | Hpt].
  - destruct ((c1 || c2) && (x1 <? x2)); [| by apply elem_of_nil in Hpt].
    assert (pt = {| p_x := x1; p_y := y; p_size := x2 + 1 - x1;
                    p_horizontal := true |}) as ->.
    { apply elem_of_cons in Hpt as [-> | Hpt]; [done |].
      destruct c1; [| by apply elem_of_nil in Hpt].
      by apply elem_of_replicate in Hpt as [-> _]. }
    unfold valid_run. simpl. intros k Hk. unfold cell_pos. simpl.
    destruct (decide (x1 + k ≤ x)) as [Hle | Hgt].
    + destruct (Hleft (x1 + k)) as (c' & Hc' & Hs & Hcr); [lia |].
      exists c'. split; [done |]. split; [done |]. intros Hf.
      apply Hcr in Hf. lia.
    + destruct (Hright (x1 + k)) as (c' & Hc' & Hs & Hcr); [lia |].
      exists c'. split; [done |]. split; [done |]. intros Hf.
      apply Hcr in Hf. lia.
  - destruct ((d1 || d2) && (y1 <? y2)); [| by apply elem_of_nil in Hpt].
    apply list_elem_of_singleton in Hpt as ->.
    unfold valid_run. simpl. intros k Hk. unfold cell_pos. simpl.
    destruct (decide (y1 + k ≤ y)) as [Hle | Hgt].
    + destruct (Hup (y1 + k)) as (c' & Hc' & Hs & Hcr); [lia |].
      exists c'. split; [done |]. split; [done |]. intros Hf.
      apply Hcr in Hf. lia.
    + destruct (Hdown (y1 + k)) as (c' & Hc' & Hs & Hcr); [lia |].
      exists c'. split; [done |]. split; [done |]. intros Hf.
      apply Hcr in Hf. lia.
Qed.

Lemma for_each_inv {A B} (f : A → M B) l : ∀ w bs w',
  for_each f l w = Ok (bs, w') →
  ∀ b, b ∈ bs → ∃ a w1 w2, a ∈ l ∧ f a w1 = Ok (b, w2).
Proof.
  induction l as [| a t IH]; intros w bs w'; simpl.
  - intros [= <- <-] b Hb. by apply elem_of_nil in Hb.
  - intros (b0 & w1 & Hb0 & H)%bind_inv.
    apply bind_inv in H as (bs' & w2 & Hbs & H). injection H as <- <-.
    intros b [-> | Hb]%elem_of_cons.
    + exists a, w, w1. split; [by left | done].
    + destruct (IH _ _ _ Hbs b Hb) as (a' & w3 & w4 & Ha' & Hf).
      exists a', w3, w4. split; [by right | done].
Qed.

Lemma elem_of_concat {A} (x : A) (ls : list (list A)) :
  x ∈ concat ls ↔ ∃ l, l ∈ ls ∧ x ∈ l.
Proof.
  rewrite list_elem_of_In, in_concat. split; intros (l & H1 & H2); exists l;
    by rewrite ?list_elem_of_In in *.
Qed.

Lemma scan_points_valid o fuel m w pts w' :
  scan_points o fuel m w = Ok (pts, w') → ∀ pt, pt ∈ pts → valid_run m pt.
Proof.
  unfold scan_points. intros (columns & w1 & Hcols & H)%bind_inv.
  injection H as <- <-. intros pt (col & Hcol & Hpt)%elem_of_concat.
  destruct (for_each_inv _ _ _ _ _ Hcols col Hcol) as (x & w2 & w3 & _ & Hx).
  apply bind_inv in Hx as (cells & w4 & Hcells & Hx). injection Hx as <- <-.
  apply elem_of_concat in Hpt as (cps & Hcps & Hpt).
  destruct (for_each_inv _ _ _ _ _ Hcells cps Hcps) as (y & w5 & w6 & _ & Hy).
  by eapply cell_points_valid.
Qed.




(** ** A matrix without words *)

(** [fillEmptySpaces] writes nothing into a matrix in which no cell has a
    flag, as the matrix of [generate]: no space ends on a crossing word. *)
Lemma scan_collision o fuel : ∀ m hb fw fixed p w e w',
  scan o fuel m hb fw fixed p w = Ok ((e, true), w') →
  ∃ c, get_at m (line_pos hb fixed e) = Some c
       ∧ (if hb then partOfVertical c else partOfHorizontal c) = true.
Proof.
  induction fuel as [| fuel IH]; intros m hb fw fixed p w e w'; simpl;
    [done |].
  destruct (if fw then _ <=? p else p <? 0); [by unfold ret |].
  intros (c & w1 & Hc & H)%bind_inv.
  assert (get_at m (line_pos hb fixed p) = Some c) as Hget.
  { unfold line_cell, line_pos in *.
    destruct hb; apply cell_at_inv in Hc as [Hc _]; exact Hc. }
  destruct (if hb then partOfHorizontal c else partOfVertical c);
    [by unfold ret in H |].
  destruct (if hb then partOfVertical c else partOfHorizontal c) eqn:Hcross.
  { injection H as <- <-. by exists c. }
  apply bind_inv in H as (b1 & w2 & _ & H).
  destruct b1; [by unfold ret in H |].
  apply bind_inv in H as (b2 & w3 & _ & H).
  destruct b2; [by unfold ret in H |].
  by eapply IH.
Qed.

Lemma cell_points_no_flag o fuel m x y w pts w' :
  (∀ p c, get_at m p = Some c →
     partOfVertical c = false ∧ partOfHorizontal c = false) →
  cell_points o fuel m x y w = Ok (pts, w') → pts = [].
Proof.
  intros Hno. unfold cell_points. intros (c & w1 & _ & H)%bind_inv.
  destruct (is_empty o c); [| by injection H as <- <-].
  assert (∀ hb fw fixed p w0 e col w0',
            scan o fuel m hb fw fixed p w0 = Ok ((e, col), w0') →
            col = false) as Hcol.
  { intros hb fw fixed p w0 e [|] w0' Hs; [| done].
    apply scan_collision in Hs as (c' & Hc' & Hf).
    destruct (Hno _ _ Hc') as [Hv Hh]. destruct hb; congruence. }
  apply bind_inv in H as ([x1 c1] & w2 & ->%Hcol & H).
  apply bind_inv in H as ([x2 c2] & w3 & ->%Hcol & H).
  apply bind_inv in H as ([y1 d1] & w4 & ->%Hcol & H).
  apply bind_inv in H as ([y2 d2] & w5 & ->%Hcol & H).
  by injection H as <- <-.
Qed.

Lemma fill_matrix_no_flag o ig fuel m w m' w' :
  (∀ p c, get_at m p = Some c →
     partOfVertical c = false ∧ partOfHorizontal c = false) →
  fill_matrix o ig fuel m w = Ok (m', w') → m' = m.
Proof.
  intros Hno. destruct fuel as [| fuel]; [done |]. cbn [fill_matrix].
  intros (pts & w1 & Hscan & H)%bind_inv.
  assert (pts = []) as ->.
  { unfold scan_points in Hscan.
    apply bind_inv in Hscan as (columns & w2 & Hcols & Hscan).
    injection Hscan as <- <-.
    destruct (concat columns) as [| pt rest] eqn:Hpts; [done |].
    assert (pt ∈ concat columns) as Hpt by (rewrite Hpts; by left).
    apply elem_of_concat in Hpt as (col & Hcol & Hpt).
    destruct (for_each_inv _ _ _ _ _ Hcols col Hcol) as (x & w3 & w4 & _ & Hx).
    apply bind_inv in Hx as (cells & w5 & Hcells & Hx). injection Hx as <- <-.
    apply elem_of_concat in Hpt as (cps & Hcps & Hpt).
    destruct (for_each_inv _ _ _ _ _ Hcells cps Hcps)
      as (y & w6 & w7 & _ & Hy).
    apply cell_points_no_flag in Hy; [| done]. subst cps.
    by apply elem_of_nil in Hpt. }
  apply bind_inv in H as (r & w2 & Hp & H). injection Hp as <- <-.
  by injection H as <- <-.
Qed.

(** ** Reachable grids *)

Lemma lift_inv {A} (r : result A) w a w' :
  lift r w = Ok (a, w') → r = Ok a ∧ w' = w.
Proof. destruct r; [| done | done]. by intros [= -> ->]. Qed.

Lemma selectSolutions_elem o solutions n out m :
  selectSolutions o solutions n = Ok out → m ∈ out →
  ∃ g, g ∈ solutions ∧ m = annotate o g.
Proof.
  unfold selectSolutions, set_length. destruct (_ <? 0); [done |].
  intros [= <-] Hm. apply elem_of_take in Hm as (i & Hi & _).
  apply list_elem_of_lookup_2 in Hi.
  rewrite stable_sort_perm in Hi.
  destruct (unique_solutions_spec (annotate o <$> solutions)) as [_ F].
  destruct (F m Hi) as (j & Hj & _).
  apply list_lookup_fmap_Some in Hj as (g & -> & Hg).
  exists g. split; [by eapply list_elem_of_lookup_2 | done].
Qed.

Section Preservation.

Variable o : options.
Variable P : grid → Prop.

Hypothesis P_same : ∀ m m',
  rows m' = rows m → questionsData m' = questionsData m → P m → P m'.
Hypothesis P_attempt : ∀ ig m w m' w',
  P m → attempt o ig m w = Ok (Some m', w') → P m'.
Hypothesis P_place : ∀ ig m pt w m' w',
  P m → valid_run m pt → place_point o ig m pt w = Ok (Some m', w') → P m'.
Hypothesis P_empty : P (empty_grid o).

Lemma generateQuestion_from_preserves ig fuel : ∀ intento m w m' w',
  P m → generateQuestion_from o ig fuel intento m w = Ok (m', w') → P m'.
Proof.
  induction fuel as [| fuel IH]; intros intento m w m' w' HP; simpl; [done |].
  destruct (finish m); [by intros [= <- <-] |].
  destruct (budget_cases o intento m)
    as [(_ & _ & _ & ->) | [(_ & _ & ->) | (_ & ->)]].
  - intros ([m1 |] & w1 & Ha & H)%bind_inv.
    + injection H as <- <-. eapply P_attempt; [| done]. by apply (P_same m).
    + eapply IH; [| done]. by apply (P_same m).
  - intros [= <- <-]. by apply (P_same m).
  - intros ([m1 |] & w1 & Ha & H)%bind_inv.
    + injection H as <- <-. by eapply P_attempt.
    + by eapply IH.
Qed.

Lemma repeat_M_preserves ig fuel n : ∀ m w m' w',
  P m → repeat_M n (generateQuestion o ig fuel) m w = Ok (m', w') → P m'.
Proof.
  induction n as [| n IH]; intros m w m' w' HP; simpl.
  - by intros [= <- <-].
  - intros (m1 & w1 & Hg & H)%bind_inv. eapply IH; [| done].
    by eapply generateQuestion_from_preserves.
Qed.

Lemma iterate_preserves ig fuel pop w out w' :
  (∀ g, g ∈ population_list pop → P g) →
  iterate o ig fuel pop w = Ok (out, w') → ∀ m, m ∈ out → P m.
Proof.
  intros Hpop. unfold iterate.
  intros (solutions & w1 & Hsol & [Hsel _]%lift_inv)%bind_inv m Hm.
  destruct (selectSolutions_elem _ _ _ _ _ Hsel Hm) as (g & Hg & ->).
  destruct (for_each_inv _ _ _ _ _ Hsol g Hg) as (i & w2 & w3 & _ & Hbody).
  apply bind_inv in Hbody as (cloned & w4 & Hc & Hrep).
  eapply (P_same g); [done | done |].
  eapply repeat_M_preserves; [| done].
  apply Hpop. unfold population_list.
  destruct (nth_Z _ _) as [g0 |] eqn:Hn; [| done].
  injection Hc as <- <-. by eapply nth_Z_elem_of.
Qed.

Lemma place_first_preserves ig pts : ∀ m w m' w',
  P m → (∀ pt, pt ∈ pts → valid_run m pt) →
  place_first o ig m pts w = Ok (Some m', w') → P m'.
Proof.
  induction pts as [| pt t IH]; intros m w m' w' HP Hv; simpl; [done |].
  intros ([m1 |] & w1 & Hp & H)%bind_inv.
  - injection H as <- <-. eapply P_place; [done | | done]. apply Hv. by left.
  - eapply IH; [done | | done]. intros pt' Hpt'. apply Hv. by right.
Qed.

Lemma fill_matrix_preserves ig fuel : ∀ m w m' w',
  P m → fill_matrix o ig fuel m w = Ok (m', w') → P m'.
Proof.
  induction fuel as [| fuel IH]; intros m w m' w' HP; [done |].
  cbn [fill_matrix].
  intros (pts & w1 & Hscan & H)%bind_inv.
  apply bind_inv in H as ([m1 |] & w2 & Hplace & H).
  - eapply IH; [| done]. eapply place_first_preserves; [done | | done].
    intros pt Hpt. rewrite stable_sort_perm in Hpt.
    by eapply scan_points_valid.
  - by injection H as <- <-.
Qed.

Lemma fillEmptySpaces_preserves ig fuel ms w out w' :
  (∀ g, g ∈ ms → P g) →
  fillEmptySpaces o ig fuel ms w = Ok (out, w') → ∀ m, m ∈ out → P m.
Proof.
  intros Hms. unfold fillEmptySpaces.
  intros (filled & w1 & Hfill & [Hsel _]%lift_inv)%bind_inv m Hm.
  destruct (selectSolutions_elem _ _ _ _ _ Hsel Hm) as (g & Hg & ->).
  destruct (for_each_inv _ _ _ _ _ Hfill g Hg) as (g0 & w2 & w3 & Hg0 & Hf).
  eapply (P_same g); [done | done |].
  eapply fill_matrix_preserves; [| done]. by apply Hms.
Qed.

Lemma reachable_preserves : ∀ m, reachable o m → P m.
Proof.
  fix IH 2. intros m [| ig fuel pop w out w' m' Hall Hit Hin
                      | ig fuel ms w out w' m' Hall Hfill Hin].
  - exact P_empty.
  - eapply iterate_preserves; [| exact Hit | exact Hin].
    intros g Hg. apply IH, Hall, Hg.
  - eapply fillEmptySpaces_preserves; [| exact Hfill | exact Hin].
    intros g Hg. apply IH, Hall, Hg.
Qed.

End Preservation.
(** ** Placements lie inside the grid *)

Lemma cells_in_bounds o m h x y (n : nat) :
  dims_ok o m → (0 < n)%nat →
  (∀ k, (k < n)%nat → is_Some (get_at m (cell_pos h x y (Z.of_nat k)))) →
  0 ≤ x ∧ 0 ≤ y
  ∧ (if truthy h then x + Z.of_nat n ≤ width o
     else y + Z.of_nat n ≤ height o).
Proof.
  intros Hd Hn Hcells.
  destruct (Hcells O) as [c0 Hc0]; [lia |].
  destruct (Hcells (n - 1)%nat) as [c1 Hc1]; [lia |].
  unfold get_at, cell_pos in *.
  destruct (truthy h); simpl in *;
    apply (dims_ok_get o) in Hc0; apply (dims_ok_get o) in Hc1; try done; lia.
Qed.

Lemma attempt_length d o ig m w m' w' :
  compilation o = compile d →
  attempt o ig m w = Ok (Some m', w') →
  ∃ q m1,
    m' = border_coverage o (add_question m1 q)
    ∧ same_properties m m1
    ∧ (dims_ok o m → dims_ok o m1)
    ∧ Z.of_nat (length (q_word q))
      = target_length o (length (questionsData m)) (q_horizontal q)
          (random w (S (drawn w)))
    ∧ (0 < length (q_word q))%nat
    ∧ ∀ k, (k < length (q_word q))%nat → is_Some (get_at m (q_pos q k)).
Proof.
  intros Hcomp
    (h & len & x & y & idx & wd & m1 & b & Hh & Hlen & Htl & Hb & Hidx & _ & _
     & Hwd & Hcells & Hput & ->)%attempt_inv.
  pose proof (nth_Z_bucket _ _ _ _ Hb Hidx) as Hbucket.
  rewrite Hcomp in Hbucket, Hwd.
  apply compile_lengths in Hbucket as (s & Hs & Hacc & Hl).
  rewrite Hwd in Hs. injection Hs as <-.
  apply put_all_writes in Hput as (Hsame & Hd & _ & _).
  eexists {| q_idx := idx; q_word := wd; q_horizontal := h;
             q_x := x; q_y := y |}, m1.
  split; [done |]. split; [done |]. split; [apply Hd |]. simpl.
  split; [lia |]. split; [lia |].
  intros k Hk. destruct (Hcells k) as (c & Hc & _); [lia |]. by exists c.
Qed.

Lemma place_point_length d o ig m pt w m' w' :
  compilation o = compile d →
  place_point o ig m pt w = Ok (Some m', w') →
  ∃ q m1,
    m' = add_question m1 q
    ∧ same_properties m m1
    ∧ (dims_ok o m → dims_ok o m1)
    ∧ Z.of_nat (length (q_word q)) = p_size pt
    ∧ q_x q = p_x pt ∧ q_y q = p_y pt
    ∧ q_horizontal q = (if p_horizontal pt then 1 else 0)
    ∧ (0 < length (q_word q))%nat
    ∧ ∀ k, (k < length (q_word q))%nat → is_Some (get_at m (q_pos q k)).
Proof.
  intros Hcomp
    (matches & fit & idx & word & m1 & Hends & Hfit & Hidx & Hword & Hfill
     & ->)%place_point_inv.
  eapply space_words_elem in Hfit as (_ & _ & (b & Hb & Hib) & _); [| done].
  pose proof (nth_Z_bucket _ _ _ _ Hb Hib) as Hbucket.
  rewrite Hcomp in Hbucket, Hword.
  apply compile_lengths in Hbucket as (s & Hs & Hacc & Hl).
  rewrite Hword in Hs. injection Hs as <-.
  assert (0 ≤ p_size pt) as Hsize.
  { unfold nth_Z in Hb. by destruct (Z.ltb_spec (p_size pt) 0). }
  apply accepted_spec in Hacc as [_ Hlong].
  set (h := if p_horizontal pt then 1 else 0) in *.
  assert (cell_pos h (p_x pt) (p_y pt) 0 = (p_x pt, p_y pt)) as H0.
  { unfold cell_pos, h. destruct (p_horizontal pt); simpl; f_equal; lia. }
  pose proof (fill_word_spec word m (p_horizontal pt) (p_x pt) (p_y pt) 0 w')
    as Hspec.
  fold h in Hspec. rewrite H0 in Hspec. simpl in Hspec.
  rewrite Hfill in Hspec.
  destruct (put_all m _) as [m1' |] eqn:Hput; [| done].
  injection Hspec as ->.
  apply put_all_writes in Hput as (Hsame & Hd & Hin & _).
  eexists {| q_idx := idx; q_word := word; q_horizontal := h;
             q_x := p_x pt; q_y := p_y pt |}, m1'.
  split; [done |]. split; [done |]. split; [apply Hd |]. simpl.
  split; [lia |]. repeat (split; [done |]). split; [lia |].
  intros k Hk. destruct (lookup_lt_is_Some_2 _ _ Hk) as [ch Hch].
  destruct (Hin k [ch]) as (c & Hc & _).
  { by rewrite list_lookup_fmap, Hch. }
  exists c. exact Hc.
Qed.

Lemma bounded_same o m m' :
  rows m' = rows m → questionsData m' = questionsData m →
  bounded o m → bounded o m'.
Proof.
  intros Hr Hq [Hd Hb]. split.
  - unfold dims_ok. by rewrite Hr.
  - by rewrite Hq.
Qed.

Lemma bounded_add o m m1 q :
  bounded o m → same_properties m m1 → dims_ok o m1 →
  (0 < length (q_word q))%nat →
  (∀ k, (k < length (q_word q))%nat → is_Some (get_at m (q_pos q k))) →
  bounded o (add_question m1 q).
Proof.
  intros [Hd Hb] Hs Hd1 Hlen Hcells. split; [done |].
  apply same_properties_questions in Hs as (_ & Hqd & _).
  intros q' Hq'. simpl in Hq'. rewrite Hqd in Hq'.
  apply elem_of_app in Hq' as [Hq' | ->%list_elem_of_singleton];
    [by apply Hb |].
  by apply (cells_in_bounds o m).
Qed.

Lemma empty_grid_dims o : dims_ok o (empty_grid o).
Proof.
  split; simpl.
  - by rewrite length_replicate.
  - apply Forall_replicate. by rewrite length_replicate.
Qed.

Lemma reachable_bounded d o m :
  compilation o = compile d → reachable o m → bounded o m.
Proof.
  intros Hcomp. apply reachable_preserves.
  - apply bounded_same.
  - intros ig m0 w m' w' Hb
      (q & m1 & -> & Hs & Hd & _ & Hlen & Hcells)%(attempt_length d);
      [| done].
    apply (bounded_same o (add_question m1 q)).
    + unfold border_coverage. by destruct (_ && _).
    + unfold border_coverage. by destruct (_ && _).
    + apply (bounded_add o m0 m1 q); [done | done | apply Hd, Hb | done | done].
  - intros ig m0 pt w m' w' Hb _
      (q & m1 & -> & Hs & Hd & _ & _ & _ & _ & Hlen & Hcells)
        %(place_point_length d); [| done].
    apply (bounded_add o m0 m1 q); [done | done | apply Hd, Hb | done | done].
  - split; [apply empty_grid_dims |]. intros q Hq. by apply elem_of_nil in Hq.
Qed.

Lemma small_iterated_reachable m :
  m ∈ small_iterated → reachable small_options m.
Proof.
  intros Hm.
  eapply (reachable_iterate small_options ∅ 200
            (Single (empty_grid small_options)) seeded_host small_iterated).
  - intros g Hg. apply list_elem_of_singleton in Hg as ->.
    apply reachable_generate.
  - vm_compute. reflexivity.
  - exact Hm.
Qed.

Lemma small_grid_reachable : reachable small_options small_grid.
Proof.
  eapply (reachable_fill small_options ∅ 10 small_iterated _ small_filled).
  - apply small_iterated_reachable.
  - instantiate (2 := match iterate small_options ∅ 200
                          (Single (empty_grid small_options)) seeded_host with
                      | Ok (_, w) => w
                      | _ => seeded_host
                      end).
    vm_compute. reflexivity.
  - vm_compute. left.
Qed.


Lemma empty_grid_get o x y c :
  get (empty_grid o) x y = Some c →
  partOfVertical c = false ∧ partOfHorizontal c = false.
Proof.
  unfold get, nth_Z, empty_grid. simpl.
  destruct (y <? 0); [done |].
  destruct (replicate _ _ !! Z.to_nat y) as [row |] eqn:Hrow; [| done].
  apply lookup_replicate in Hrow as [-> _].
  destruct (x <? 0); [done |]. intros Hc.
  by apply lookup_replicate in Hc as [-> _].
Qed.

Lemma fill_matrix_empty_grid o ig fuel w m' w' :
  fill_matrix o ig fuel (empty_grid o) w = Ok (m', w') → m' = empty_grid o.
Proof.
  apply fill_matrix_no_flag. intros p c Hc. by eapply empty_grid_get.
Qed.



(** C10: for a generator over a compilation of [compile], every placement of
    every reachable grid lies inside the grid; the word that
    [#generateQuestion] adds has the target length of the attempt, and the
    word that [fillEmptySpaces] adds has the size of the space and starts
    where the space starts. *)
Theorem placements_in_bounds d o :
  compilation o = compile d →
  (∀ m q, reachable o m → q ∈ questionsData m → in_bounds o q)
  ∧ (∀ ig m w m' w',
       attempt o ig m w = Ok (Some m', w') →
       ∃ q, questionsData m' = questionsData m ++ [q]
            ∧ Z.of_nat (length (q_word q))
              = target_length o (length (questionsData m)) (q_horizontal q)
                  (random w (S (drawn w))))
  ∧ (∀ ig m pt w m' w',
       place_point o ig m pt w = Ok (Some m', w') →
       ∃ q, questionsData m' = questionsData m ++ [q]
            ∧ Z.of_nat (length (q_word q)) = p_size pt
            ∧ q_x q = p_x pt ∧ q_y q = p_y pt).
Proof.
  intros Hcomp. split; [| split].
  - intros m q Hr Hq. by apply (reachable_bounded d o m Hcomp Hr).
  - intros ig m w m' w'
      (q & m1 & -> & Hs & _ & Hlen & _)%(attempt_length d); [| done].
    exists q. split; [| done].
    apply same_properties_questions in Hs as (_ & Hqd & _).
    unfold border_coverage. destruct (_ && _); simpl; by rewrite Hqd.
  - intros ig m pt w m' w'
      (q & m1 & -> & Hs & _ & Hlen & Hx & Hy & _)%(place_point_length d);
      [| done].
    exists q. split; [| done].
    apply same_properties_questions in Hs as (_ & Hqd & _).
    simpl. by rewrite Hqd.
Qed.

Lemma placements_in_bounds_witness :
  in_bounds small_options
    {| q_idx := 0; q_word := js "AB"; q_horizontal := 0;
       q_x := 0; q_y := 0 |}.
Proof.
  destruct (placements_in_bounds small_dictionary small_options) as [H _];
    [reflexivity |].
  apply (H small_grid); [apply small_grid_reachable |].
  vm_compute. left.
Defined.


